(** * gonk: Smith-Waterman score matrices and their diagonal profiles

    A shallow embedding of the two Go programs of the repository:
    the constant-penalty aligner ([Constant], the program with the [-p]
    flag) and the affine-gap aligner ([Affine], [affine.go]).

    Go's [int] is taken at 64 bits and modelled as [Z] with the wrap-around
    of every arithmetic operation written out ([GoInt]).  A [[][]int] is a
    [list (list Z)]; indexing is fallible, and a run-time panic (index out
    of range, [panic(e)], [log.Fatal]) is [None].  A Go [string] is a
    sequence of bytes, modelled as [string]. *)

From Stdlib Require Import ZArith Lia String Ascii.
From stdpp Require Import base numbers option list gmap strings.
From Equations Require Import Equations.

Local Open Scope Z_scope.

(** ** Go's 64-bit [int] *)

Module GoInt.

Definition min_int : Z := - 2 ^ 63.
Definition max_int : Z := 2 ^ 63 - 1.

Definition in_range (z : Z) : Prop := min_int <= z <= max_int.

(** The value an [int] holds after an operation whose exact result is [z]. *)
Definition wrap (z : Z) : Z := (z + 2 ^ 63) mod 2 ^ 64 - 2 ^ 63.

Definition add (x y : Z) : Z := wrap (x + y).
Definition sub (x y : Z) : Z := wrap (x - y).
Definition neg (x : Z) : Z := wrap (- x).

End GoInt.

(** ** Slices of slices *)

Abbreviation matrix := (list (list Z)).

(** [matrix[i][j]], panicking out of range. *)
Definition get_cell (mx : matrix) (i j : nat) : option Z :=
  row ← mx !! i; row !! j.

(** [matrix[i][j] = v], panicking out of range. *)
Definition set_cell (mx : matrix) (i j : nat) (v : Z) : option matrix :=
  row ← mx !! i;
  if decide (j < length row)%nat then Some (<[i := <[j := v]> row]> mx) else None.

(** The value of a cell of a matrix known to have it (0 elsewhere). *)
Definition cell (mx : matrix) (i j : nat) : Z := default 0 (get_cell mx i j).

(** [makeMatrix(n, m)]: [n+1] rows of [m+1] zeros. *)
Definition makeMatrix (n m : nat) : matrix :=
  replicate (n + 1) (replicate (m + 1) 0).

(** An [(n+1)]-by-[(m+1)] matrix. *)
Definition shape (n m : nat) (mx : matrix) : Prop :=
  length mx = S n ∧ Forall (λ row, length row = S m) mx.

(** [for idx := range ... { body }] over the index values [idx], in the
    error monad: the first panic ends the run. *)
Fixpoint for_loop {St : Type} (idx : list nat) (body : nat → St → option St)
    (s : St) : option St :=
  match idx with
  | [] => Some s
  | i :: rest => s' ← body i s; for_loop rest body s'
  end.

(** [maxScore]: the largest entry of the array, or 0 when none is positive. *)
Definition maxScore (scores : list Z) : Z :=
  fold_left (λ max score, if score >? max then score else max) scores 0.

(** [int(seq[k])]: the byte at index [k] as an [int]. *)
Definition byte_at (s : string) (k : nat) : option Z :=
  c ← String.get k s; Some (Z.of_N (N_of_ascii c)).

(** [scores[a][b]] *)
Definition table_at (scores : list (list Z)) (a b : nat) : option Z :=
  row ← scores !! a; row !! b.

(** A Go map lookup [m[k]]: the zero value when the key is absent. *)
Definition map_at (m : gmap Z nat) (k : Z) : nat := default 0%nat (m !! k).

(** ** Diagonal summation ([sums], the same in both programs) *)

Definition sums (matches : matrix) : option (list Z) :=
  row0 ← matches !! 0%nat;
  let cols := length row0 in
  for_loop (seq 0 (length matches))
    (λ i acc,
       for_loop (seq i (cols - i))
         (λ j acc',
            v ← get_cell matches i j;
            old ← acc' !! (j - i)%nat;
            Some (<[(j - i)%nat := GoInt.add old v]> acc'))
         acc)
    (replicate cols 0).

(** ** The library calls of the readers *)

(** A value together with the equation that it is the value of [a]; the
    reader loops recurse on what a library call leaves unread. *)
Definition inspect {A : Type} (a : A) : {b : A | a = b} := exist _ a eq_refl.

Definition newline : ascii := "010"%char.
Definition NL : string := String newline EmptyString.

Module Strings.

(** [strings.HasSuffix(s, suffix)] *)
Definition HasSuffix (s suffix : string) : bool :=
  let ls := String.length s in
  let lx := String.length suffix in
  (lx <=? ls)%nat && String.eqb (substring (ls - lx) lx s) suffix.

(** [strings.TrimSuffix(s, suffix)]: [s] without the trailing [suffix], or
    [s] itself when it does not end with it. *)
Definition TrimSuffix (s suffix : string) : string :=
  if HasSuffix s suffix
  then substring 0 (String.length s - String.length suffix) s
  else s.

End Strings.

Module Bufio.

(** The unread input up to its first newline: the bytes before it, whether
    a newline was found, and what follows the newline. *)
Fixpoint break_line (input : string) : string * bool * string :=
  match input with
  | EmptyString => (EmptyString, false, EmptyString)
  | String c rest =>
      if Ascii.eqb c newline then (EmptyString, true, rest)
      else let '(data, found, rest') := break_line rest in (String c data, found, rest')
  end.

(** [reader.ReadString('\n')] on the unread input: the data up to and
    including the first newline with a nil error ([false]) and the input
    left unread; when the input ends before a newline, the data read so
    far with [io.EOF] ([true]). *)
Definition ReadString (input : string) : string * bool * string :=
  let '(data, found, rest) := break_line input in
  if found then (data +:+ NL, false, rest) else (data, true, EmptyString).

(** [bufio.MaxScanTokenSize]: the buffer of a [Scanner] grows to 64 KiB and
    no further. *)
Definition MaxScanTokenSize : Z := 64 * 1024.

(** [dropCR]: the data without one trailing carriage return. *)
Fixpoint dropCR (data : string) : string :=
  match data with
  | EmptyString => EmptyString
  | String c EmptyString => if Ascii.eqb c "013"%char then EmptyString else data
  | String c rest => String c (dropCR rest)
  end.

(** [scanner.Scan()] with the default split function [ScanLines], on the
    unread input: the next token ([scanner.Text()]) and the input left, or
    [None] when [Scan] returns false: at the end of the input, or with
    [ErrTooLong] when the buffer is full and holds no newline.  The last
    line is a token also when no newline ends it. *)
Definition Scan (input : string) : option (string * string) :=
  match input with
  | EmptyString => None
  | _ =>
      let '(data, _, rest) := break_line input in
      if decide (MaxScanTokenSize <= Z.of_nat (String.length data)) then None
      else Some (dropCR data, rest)
  end.

End Bufio.

(** ** FASTA records (the same in both programs) *)

Module Fasta.

Record fasta : Type := Fasta { header : string; seq : string }.

Definition add_seq (fa : fasta) (sequence : string) : fasta :=
  Fasta (header fa) (seq fa +:+ sequence).

(** What both readers do with one line: skip it when empty, open a record
    when it starts with [>], else append it to the last record;
    [seqs[len(seqs)-1]] panics when there is no record yet. *)
Definition take_line (line : string) (seqs : list fasta) : option (list fasta) :=
  match line with
  | EmptyString => Some seqs
  | String c tail =>
      if Ascii.eqb c ">"%char then Some (seqs ++ [Fasta tail EmptyString])
      else
        if decide (length seqs = 0)%nat then None
        else
          let k := (length seqs - 1)%nat in
          fa ← seqs !! k; Some (<[k := add_seq fa line]> seqs)
  end.

End Fasta.

(** What a run leaves behind: the rows printed to standard output by
    [printMatrix], and the offset:score lines written to the output file
    with its path, if the run got as far as [writeScores]. *)
Record outcome : Type := Outcome {
  printed : list (list Z);
  written : option (string * list (nat * Z))
}.

(** The world of a run: the content of each file that [os.Open] can open,
    the paths that are directories, and the paths [os.Create] can create. *)
Record world : Type := World {
  open_file : string → option string;
  is_dir : string → bool;
  can_create : string → bool
}.

(** [writeScores] on a resolved path: [None] when [os.Create] fails. *)
Definition writeScores (w : world) (path : string) (sums : list Z)
    : option (string * list (nat * Z)) :=
  if can_create w path then Some (path, imap (λ i score, (i, score)) sums) else None.

(** ** The constant-penalty program *)

Module Constant.

Definition baseInt : gmap Z nat :=
  {[ 65 := 0%nat; 67 := 1%nat; 71 := 2%nat; 84 := 3%nat; 78 := 4%nat ]}.

Definition scores : list (list Z) :=
  [ [5; -4; -4; -4; 0];
    [-4; 5; -4; -4; 0];
    [-4; -4; 5; -4; 0];
    [-4; -4; -4; 5; 0];
    [0; 0; 0; 0; 0] ].

(** [scores[baseInt[indA]][baseInt[indB]]] *)
Definition substitution (indA indB : Z) : option Z :=
  table_at scores (map_at baseInt indA) (map_at baseInt indB).

(** The body of the inner loop of [populate] at cell [(i, j)]. *)
Definition populate_cell (diag : bool) (penalty : Z) (seqA seqB : string)
    (i j : nat) (matches : matrix) : option matrix :=
  if bool_decide (i = j) && diag then set_cell matches i j 0
  else
    indA ← byte_at seqA (i - 1);
    indB ← byte_at seqB (j - 1);
    score ← substitution indA indB;
    back ← get_cell matches (i - 1) (j - 1);
    left ← get_cell matches (i - 1) j;
    above ← get_cell matches i (j - 1);
    let potential :=
      [GoInt.add back score; GoInt.sub left penalty; GoInt.sub above penalty; 0] in
    set_cell matches i j (maxScore potential).

(** [populate]: [i] runs over [1 .. len(matches)-1] and, for each [i], [j]
    over [1 .. len(matches[0])-1].  No write changes a length, so the
    bound of a loop is read when the loop is entered. *)
Definition populate (diag : bool) (penalty : Z) (matches : matrix)
    (seqA seqB : string) : option matrix :=
  for_loop (seq 1 (length matches - 1))
    (λ i mx,
       row0 ← mx !! 0%nat;
       for_loop (seq 1 (length row0 - 1))
         (λ j mx', populate_cell diag penalty seqA seqB i j mx') mx)
    matches.

(** The matrix [main] builds for two sequences: [populate] on a fresh
    [makeMatrix(len(first), len(second))]. *)
Definition build (diag : bool) (penalty : Z) (first second : string) : option matrix :=
  populate diag penalty
    (makeMatrix (String.length first) (String.length second)) first second.

(** The loop of [readFasta] over the unread input. *)
Equations? readFasta_loop (reader : string) (seqs : list Fasta.fasta)
    : option (list Fasta.fasta) by wf (String.length reader) lt :=
  readFasta_loop reader seqs with inspect (Bufio.ReadString reader) := {
    | exist _ (line, true, rest) _ => Some seqs
    | exist _ (line, false, rest) _ =>
        match Fasta.take_line (Strings.TrimSuffix line NL) seqs with
        | None => None
        | Some seqs' => readFasta_loop rest seqs'
        end }.
Proof.
  revert rest line e. clear. intros rest line.
  unfold Bufio.ReadString.
  destruct (Bufio.break_line reader) as [[d f] r] eqn:E.
  destruct f; [|discriminate]. intros [= _ <-].
  revert d r E. induction reader as [|c s IH]; simpl; intros d r E; [discriminate|].
  destruct (Ascii.eqb c newline).
  - injection E as _ <-. lia.
  - destruct (Bufio.break_line s) as [[d' f'] r'].
    injection E as _ -> ->. specialize (IH _ _ eq_refl). lia.
Qed.

(** [readFasta] on a file: [check(err)] panics when it cannot be opened. *)
Definition readFasta (w : world) (seqFile : string) : option (list Fasta.fasta) :=
  content ← open_file w seqFile; readFasta_loop content [].

Record flags : Type := Flags {
  seqA : string; seqB : string; diag : bool; penalty : Z; mat : bool; out : string
}.

(** [checkOutFile]: a directory gets the default file name appended. *)
Definition checkOutFile (w : world) (out : string) : string :=
  if is_dir w out then out +:+ "/SW_PARSE.txt" else out.

(** [main]: [None] is a run that ends in [log.Fatal] or in a panic before
    anything is printed or written. *)
Definition main (w : world) (f : flags) : option outcome :=
  if bool_decide (seqA f = EmptyString) || bool_decide (seqB f = EmptyString) then None
  else
    seqsA ← readFasta w (seqA f);
    recA ← seqsA !! 0%nat;
    let first := Fasta.seq recA in
    seqsB ← readFasta w (seqB f);
    recB ← seqsB !! 0%nat;
    let second := Fasta.seq recB in
    matchMatrix ← build (diag f) (penalty f) first second;
    sumList ← sums matchMatrix;
    let stdout := if mat f then matchMatrix else [] in
    Some (Outcome stdout (writeScores w (checkOutFile w (out f)) sumList)).

End Constant.

(** ** The affine-gap program *)

Module Affine.

Definition baseInt : gmap Z nat :=
  {[ 65 := 0%nat; 67 := 1%nat; 71 := 2%nat; 84 := 3%nat ]}.

Definition scores : list (list Z) :=
  [ [5; -4; -4; -4];
    [-4; 5; -4; -4];
    [-4; -4; 5; -4];
    [-4; -4; -4; 5] ].

Definition substitution (indA indB : Z) : option Z :=
  table_at scores (map_at baseInt indA) (map_at baseInt indB).

(** The rows reachable from [populate]: the three slices [matches], [gapA]
    and [gapB].  [main] makes them with three calls of [makeMatrix], so they
    share no row; the array [matrices] holds the same three slice headers,
    and a write through [matrices[k]] is a write to the [k]-th of them. *)
Record store : Type := Store { matches : matrix; gapA : matrix; gapB : matrix }.

(** [matrices[k][i][j] = v] *)
Definition write (k i j : nat) (v : Z) (st : store) : option store :=
  match k with
  | 0%nat => mx ← set_cell (matches st) i j v; Some (Store mx (gapA st) (gapB st))
  | 1%nat => mx ← set_cell (gapA st) i j v; Some (Store (matches st) mx (gapB st))
  | 2%nat => mx ← set_cell (gapB st) i j v; Some (Store (matches st) (gapA st) mx)
  | _ => None
  end.

(** The array [potential] of the [k]-th round at cell [(i, j)]. *)
Definition potential (open ext score : Z) (k i j : nat) (st : store) : option (list Z) :=
  match k with
  | 0%nat =>
      p0 ← get_cell (matches st) (i - 1) (j - 1);
      p1 ← get_cell (gapA st) (i - 1) (j - 1);
      p2 ← get_cell (gapB st) (i - 1) (j - 1);
      Some [GoInt.add p0 score; GoInt.add p1 score; GoInt.add p2 score]
  | 1%nat =>
      p0 ← get_cell (matches st) i (j - 1);
      p1 ← get_cell (gapA st) i (j - 1);
      p2 ← get_cell (gapB st) i (j - 1);
      Some [GoInt.add (GoInt.sub (GoInt.neg open) ext) p0;
            GoInt.add (GoInt.neg ext) p1;
            GoInt.add (GoInt.sub (GoInt.neg open) ext) p2]
  | 2%nat =>
      p0 ← get_cell (matches st) (i - 1) j;
      p1 ← get_cell (gapA st) (i - 1) j;
      p2 ← get_cell (gapB st) (i - 1) j;
      Some [GoInt.add (GoInt.sub (GoInt.neg open) ext) p0;
            GoInt.add (GoInt.sub (GoInt.neg open) ext) p1;
            GoInt.add (GoInt.neg ext) p2]
  | _ => Some [0; 0; 0]
  end.

(** One round of [for k, matrix := range matrices]: the state is the array
    [maxes] and the store. *)
Definition round (open ext score : Z) (i j k : nat) (s : list Z * store)
    : option (list Z * store) :=
  pot ← potential open ext score k i j s.2;
  let v := maxScore pot in
  st' ← write k i j v s.2;
  Some (<[k := v]> s.1, st').

(** The body of the inner loop of [populate] at cell [(i, j)]. *)
Definition populate_cell (diag : bool) (open ext : Z) (seqA seqB : string)
    (i j : nat) (st : store) : option store :=
  if bool_decide (i = j) && diag then write 0 i j 0 st
  else
    indA ← byte_at seqA (i - 1);
    indB ← byte_at seqB (j - 1);
    score ← substitution indA indB;
    s ← for_loop [0; 1; 2]%nat (round open ext score i j) ([0; 0; 0], st);
    let toAdd := maxScore s.1 in
    write 0 i j toAdd s.2.

(** [populate]; the loops are those of the constant-penalty program, and
    the bounds are taken from [matches]. *)
Definition populate (diag : bool) (open ext : Z) (st : store)
    (seqA seqB : string) : option store :=
  for_loop (seq 1 (length (matches st) - 1))
    (λ i s,
       row0 ← matches s !! 0%nat;
       for_loop (seq 1 (length row0 - 1))
         (λ j s', populate_cell diag open ext seqA seqB i j s') s)
    st.

(** The three matrices [main] ends with; [matches] is what [populate]
    returns, the composite matrix. *)
Definition build (diag : bool) (open ext : Z) (first second : string) : option store :=
  let n := String.length first in
  let m := String.length second in
  populate diag open ext
    (Store (makeMatrix n m) (makeMatrix n m) (makeMatrix n m)) first second.

(** The loop of [fasta_reader] over the input the scanner has not read. *)
Equations? fasta_reader_loop (input : string) (seqs : list Fasta.fasta)
    : option (list Fasta.fasta) by wf (String.length input) lt :=
  fasta_reader_loop input seqs with inspect (Bufio.Scan input) := {
    | exist _ None _ => Some seqs
    | exist _ (Some (line, rest)) _ =>
        match Fasta.take_line line seqs with
        | None => None
        | Some seqs' => fasta_reader_loop rest seqs'
        end }.
Proof.
  revert rest line e. clear. intros rest line.
  unfold Bufio.Scan. destruct input as [|c s]; [discriminate|].
  destruct (Bufio.break_line (String c s)) as [[d f] r] eqn:E.
  case_decide; [discriminate|]. intros [= _ <-].
  assert (Hle : ∀ t d f r, Bufio.break_line t = (d, f, r) →
                 (String.length r ≤ String.length t)%nat).
  { clear. induction t as [|c s IH]; simpl; intros d f r E.
    - injection E as _ _ <-. simpl. lia.
    - destruct (Ascii.eqb c newline).
      + injection E as _ _ <-. lia.
      + destruct (Bufio.break_line s) as [[d' f'] r'].
        injection E as _ _ ->. specialize (IH _ _ _ eq_refl). lia. }
  simpl in E. destruct (Ascii.eqb c newline).
  - injection E as _ _ <-. simpl. lia.
  - destruct (Bufio.break_line s) as [[d' f'] r'] eqn:E'.
    injection E as _ _ ->. apply Hle in E'. simpl. lia.
Qed.

Definition fasta_reader (w : world) (seqFile : string) : option (list Fasta.fasta) :=
  content ← open_file w seqFile; fasta_reader_loop content [].

Record flags : Type := Flags {
  seqA : string; seqB : string; diag : bool; open : Z; ext : Z; mat : bool; out : string
}.

(** [main]: [None] is a run that ends in [log.Fatal] or in a panic before
    anything is printed or written. *)
Definition main (w : world) (f : flags) : option outcome :=
  if bool_decide (seqA f = EmptyString) || bool_decide (seqB f = EmptyString) then None
  else
    seqsA ← fasta_reader w (seqA f);
    recA ← seqsA !! 0%nat;
    let first := Fasta.seq recA in
    seqsB ← fasta_reader w (seqB f);
    recB ← seqsB !! 0%nat;
    let second := Fasta.seq recB in
    st ← build (diag f) (open f) (ext f) first second;
    sumList ← sums (matches st);
    let stdout := if mat f then matches st else [] in
    Some (Outcome stdout (writeScores w (out f) sumList)).

End Affine.

(** * Vocabulary of the statements *)

(** The cells already visited when the cell after [(i, j)] is next, in a
    grid with columns [1 .. m]. *)
Definition visited (m i j a b : nat) : Prop :=
  (1 ≤ a)%nat ∧ (1 ≤ b ≤ m)%nat ∧ (a < i ∨ (a = i ∧ b ≤ j))%nat.

(** Membership in the visited part of the grid is decidable. *)
#[local] Instance visited_dec m i j a b : Decision (visited m i j a b).
Proof. unfold visited. apply _. Defined.

(** The state [s] of a traversal that started in [s0], when the cell after
    [(i, j)] is next: a visited cell holds the value [F] gives it from the
    cells of [s], the others hold what they held in [s0]. *)
Definition filled {St V : Type} (m : nat) (good : St → Prop)
    (view : St → nat → nat → V) (F : (nat → nat → V) → V → nat → nat → V)
    (s0 : St) (i j : nat) (s : St) : Prop :=
  good s ∧
  ∀ a b, view s a b
         = if decide (visited m i j a b) then F (view s) (view s0 a b) a b
           else view s0 a b.

(** The score of the symbols at row [i] and column [j], as the loop body
    computes it, for a substitution table [subst]. *)
Definition pair_score (subst : Z → Z → option Z) (seqA seqB : string)
    (i j : nat) : option Z :=
  indA ← byte_at seqA (i - 1); indB ← byte_at seqB (j - 1); subst indA indB.

(** The test [i == j && *diag] of both builders. *)
Definition excluded (diag : bool) (i j : nat) : bool := bool_decide (i = j) && diag.

(** What [populate] stores at [(a, b)] when the cells hold [f]. *)
Definition constant_value (diag : bool) (penalty : Z) (seqA seqB : string)
    (f : nat → nat → Z) (old : Z) (a b : nat) : Z :=
  if excluded diag a b then 0
  else
    let score := default 0 (pair_score Constant.substitution seqA seqB a b) in
    maxScore [GoInt.add (f (a - 1)%nat (b - 1)%nat) score;
              GoInt.sub (f (a - 1)%nat b) penalty;
              GoInt.sub (f a (b - 1)%nat) penalty; 0].

(** What the three matrices hold at a cell: match, gap in A, gap in B. *)
Definition affine_view (st : Affine.store) (a b : nat) : Z * Z * Z :=
  (cell (Affine.matches st) a b, cell (Affine.gapA st) a b, cell (Affine.gapB st) a b).

(** Three matrices of [n+1] rows and [m+1] columns. *)
Definition affine_good (n m : nat) (st : Affine.store) : Prop :=
  shape n m (Affine.matches st) ∧ shape n m (Affine.gapA st)
  ∧ shape n m (Affine.gapB st).

(** The three rounds of a cell, from what the cells hold: the match-state
    maximum, the maximum written to [gapA] and the one written to [gapB]. *)
Definition affine_rounds (open ext score : Z) (f : nat → nat → Z * Z * Z)
    (a b : nat) : Z * Z * Z :=
  let back := f (a - 1)%nat (b - 1)%nat in
  let above := f a (b - 1)%nat in
  let left := f (a - 1)%nat b in
  let oe := GoInt.sub (GoInt.neg open) ext in
  let e := GoInt.neg ext in
  (maxScore [GoInt.add back.1.1 score; GoInt.add back.1.2 score; GoInt.add back.2 score],
   maxScore [GoInt.add oe above.1.1; GoInt.add e above.1.2; GoInt.add oe above.2],
   maxScore [GoInt.add oe left.1.1; GoInt.add oe left.1.2; GoInt.add e left.2]).

(** What [populate] leaves at [(a, b)] in the three matrices when the cells
    hold [f] and the cell itself held [old]: on an excluded cell only
    [matches] is written. *)
Definition affine_value (diag : bool) (open ext : Z) (seqA seqB : string)
    (f : nat → nat → Z * Z * Z) (old : Z * Z * Z) (a b : nat) : Z * Z * Z :=
  if excluded diag a b then (0, old.1.2, old.2)
  else
    let score := default 0 (pair_score Affine.substitution seqA seqB a b) in
    let r := affine_rounds open ext score f a b in
    (maxScore [r.1.1; r.1.2; r.2], r.1.2, r.2).

(** The three rounds with each candidate as the wrapped value of the exact
    expression. *)
Definition affine_rounds_wrapped (open ext score : Z) (f : nat → nat → Z * Z * Z)
    (a b : nat) : Z * Z * Z :=
  let back := f (a - 1)%nat (b - 1)%nat in
  let above := f a (b - 1)%nat in
  let left := f (a - 1)%nat b in
  (Z.max 0 (Z.max (GoInt.wrap (back.1.1 + score))
              (Z.max (GoInt.wrap (back.1.2 + score)) (GoInt.wrap (back.2 + score)))),
   Z.max 0 (Z.max (GoInt.wrap (above.1.1 - open - ext))
              (Z.max (GoInt.wrap (above.1.2 - ext)) (GoInt.wrap (above.2 - open - ext)))),
   Z.max 0 (Z.max (GoInt.wrap (left.1.1 - open - ext))
              (Z.max (GoInt.wrap (left.1.2 - open - ext)) (GoInt.wrap (left.2 - ext))))).

(** The three rounds in exact integers. *)
Definition affine_rounds_exact (open ext score : Z) (f : nat → nat → Z * Z * Z)
    (a b : nat) : Z * Z * Z :=
  let back := f (a - 1)%nat (b - 1)%nat in
  let above := f a (b - 1)%nat in
  let left := f (a - 1)%nat b in
  (Z.max 0 (Z.max (back.1.1 + score) (Z.max (back.1.2 + score) (back.2 + score))),
   Z.max 0 (Z.max (above.1.1 - open - ext)
              (Z.max (above.1.2 - ext) (above.2 - open - ext))),
   Z.max 0 (Z.max (left.1.1 - open - ext)
              (Z.max (left.1.2 - open - ext) (left.2 - ext)))).

(** The three values of a cell lie between [lo] and [hi]. *)
Definition triple_in (lo hi : Z) (v : Z * Z * Z) : Prop :=
  lo <= v.1.1 <= hi ∧ lo <= v.1.2 <= hi ∧ lo <= v.2 <= hi.

(** The recurrence of the claim at [(i, j)] for matrices read through
    [M], [Ga] and [Gb], in exact integers: the match value [m0], the two
    gap values, and their maximum in [M]. *)
Definition affine_cell_exact (open ext s : Z) (M Ga Gb : nat → nat → Z)
    (i j : nat) : Prop :=
  ∃ m0,
    m0 = Z.max 0 (Z.max (M (i - 1)%nat (j - 1)%nat + s)
                   (Z.max (Ga (i - 1)%nat (j - 1)%nat + s)
                          (Gb (i - 1)%nat (j - 1)%nat + s))) ∧
    Ga i j = Z.max 0 (Z.max (M i (j - 1)%nat - open - ext)
                       (Z.max (Ga i (j - 1)%nat - ext)
                              (Gb i (j - 1)%nat - open - ext))) ∧
    Gb i j = Z.max 0 (Z.max (M (i - 1)%nat j - open - ext)
                       (Z.max (Ga (i - 1)%nat j - open - ext)
                              (Gb (i - 1)%nat j - ext))) ∧
    M i j = Z.max m0 (Z.max (Ga i j) (Gb i j)).

(** The same with every candidate an [int]: the wrapped value of the
    exact expression. *)
Definition affine_cell_wrapped (open ext s : Z) (M Ga Gb : nat → nat → Z)
    (i j : nat) : Prop :=
  ∃ m0,
    m0 = Z.max 0 (Z.max (GoInt.wrap (M (i - 1)%nat (j - 1)%nat + s))
                   (Z.max (GoInt.wrap (Ga (i - 1)%nat (j - 1)%nat + s))
                          (GoInt.wrap (Gb (i - 1)%nat (j - 1)%nat + s)))) ∧
    Ga i j = Z.max 0 (Z.max (GoInt.wrap (M i (j - 1)%nat - open - ext))
                       (Z.max (GoInt.wrap (Ga i (j - 1)%nat - ext))
                              (GoInt.wrap (Gb i (j - 1)%nat - open - ext)))) ∧
    Gb i j = Z.max 0 (Z.max (GoInt.wrap (M (i - 1)%nat j - open - ext))
                       (Z.max (GoInt.wrap (Ga (i - 1)%nat j - open - ext))
                              (GoInt.wrap (Gb (i - 1)%nat j - ext)))) ∧
    M i j = Z.max m0 (Z.max (Ga i j) (Gb i j)).

(** Whether the symbol [c] occurs in [s]. *)
Fixpoint has_symbol (c : ascii) (s : string) : bool :=
  match s with
  | EmptyString => false
  | String x rest => Ascii.eqb x c || has_symbol c rest
  end.

(** A sequence in which [N] does not occur: [N] is the one symbol the two
    substitution tables score differently. *)
Definition without_N (s : string) : Prop := has_symbol "N"%char s = false.

(** The exact sum of a list of integers. *)
Definition Zsum (l : list Z) : Z := foldr Z.add 0 l.

(** The sum of the cells [(i, i + d)] over the rows [i < rows] with
    [i + d <= m]. *)
Definition diagonal_sum (mx : matrix) (m d rows : nat) : Z :=
  Zsum (map (λ i, cell mx i (i + d)) (filter (λ i, (i + d ≤ m)%nat) (seq 0 rows))).

(** The cell-wise combination of two matrices. *)
Definition matrix_zip (f : Z → Z → Z) (A B : matrix) : matrix :=
  zip_with (zip_with f) A B.

(** [int(c)] for a byte [c]. *)
Definition byte_of (c : ascii) : Z := Z.of_N (N_of_ascii c).

(** The symbol as the table sees it: itself when the map has it, [A]
    otherwise. *)
Definition read_as_A (m : gmap Z nat) (c : ascii) : ascii :=
  match m !! byte_of c with Some _ => c | None => "A"%char end.

(** The string with [f] applied to each of its bytes. *)
Fixpoint map_string (f : ascii → ascii) (s : string) : string :=
  match s with
  | EmptyString => EmptyString
  | String c rest => String (f c) (map_string f rest)
  end.





(** A world with an empty file [a.fasta] and a file [b.fasta] of one
    record. *)
Definition empty_a_world : world :=
  World (λ path, if String.eqb path "a.fasta" then Some EmptyString
                 else if String.eqb path "b.fasta" then Some (">b" +:+ NL +:+ "ACGT" +:+ NL)
                 else None)
        (λ _, false) (λ _, true).

(** [n] times the byte [c]. *)
Fixpoint run_of (c : ascii) (n : nat) : string :=
  match n with
  | O => EmptyString
  | S k => String c (run_of c k)
  end.

(** A world with the two files of the examples: [x.fasta] ends without a
    newline, [y.fasta] with one. *)
Definition two_files : world :=
  World (λ path,
           if String.eqb path "x.fasta"
           then Some (">x" +:+ NL +:+ "ACGT" +:+ NL +:+ "AC")
           else if String.eqb path "y.fasta"
           then Some (">y" +:+ NL +:+ "ACG" +:+ NL)
           else None)
        (λ _, false) (λ _, true).

(** A byte that is not a key of the symbol map of the constant-penalty
    program. *)
Definition absent_constant (k : Z) : Prop :=
  k ≠ 65 ∧ k ≠ 67 ∧ k ≠ 71 ∧ k ≠ 84 ∧ k ≠ 78.

(** A byte that is not a key of the symbol map of the affine program. *)
Definition absent_affine (k : Z) : Prop :=
  k ≠ 65 ∧ k ≠ 67 ∧ k ≠ 71 ∧ k ≠ 84.

(** [s] is what [A] scores against the byte [other] when that is one of
    [A], [C], [G], [T]: 5 against [A], -4 against the others. *)
Definition scored_as_A (s other : Z) : Prop :=
  (other = 65 → s = 5) ∧ (other = 67 ∨ other = 71 ∨ other = 84 → s = -4).

(** * Properties *)

(** ** The programs on small inputs *)

(** The aligned pair of the README, penalty 25: matches accumulate on the
    diagonal and every other cell is floored at 0. *)
Example constant_acgt :
  Constant.build false 25 "ACGT" "ACGT"
  = Some [[0;0;0;0;0]; [0;5;0;0;0]; [0;0;10;0;0]; [0;0;0;15;0]; [0;0;0;0;20]].
Proof. vm_compute. reflexivity. Qed.

Example affine_acgt :
  Affine.matches <$> Affine.build false 25 1 "ACGT" "ACGT"
  = Constant.build false 25 "ACGT" "ACGT".
Proof. vm_compute. reflexivity. Qed.

(** A gap of two columns after six matches: the second gap column costs
    the extend cost only. *)
Example affine_gap_row :
  (λ st, Affine.matches st !! 6%nat) <$> Affine.build false 25 1 "ACGTAC" "ACGTACGG"
  = Some (Some [0; 0; 10; 0; 0; 0; 30; 4; 3]).
Proof. vm_compute. reflexivity. Qed.

Example constant_gap_row :
  (λ R : matrix, R !! 6%nat) <$> Constant.build false 25 "ACGTAC" "ACGTACGG"
  = Some (Some [0; 0; 10; 0; 0; 0; 30; 5; 0]).
Proof. vm_compute. reflexivity. Qed.

Example constant_N_scores_zero :
  Constant.build false 25 "N" "A" = Some [[0; 0]; [0; 0]]
  ∧ (Affine.matches <$> Affine.build false 25 1 "N" "A") = Some [[0; 0]; [0; 5]].
Proof. vm_compute. split; reflexivity. Qed.

Example int_wraps : GoInt.add GoInt.max_int 1 = GoInt.min_int.
Proof. vm_compute. reflexivity. Qed.

Example sums_wide : sums [[1; 2; 3]; [4; 5; 6]] = Some [6; 8; 3].
Proof. vm_compute. reflexivity. Qed.

Example sums_tall : sums [[1; 2]; [4; 5]; [7; 8]] = Some [6; 2].
Proof. vm_compute. reflexivity. Qed.

Example sums_no_row : sums [] = None.
Proof. reflexivity. Qed.

Example readFasta_drops_last_line :
  Constant.readFasta two_files "x.fasta" = Some [Fasta.Fasta "x" "ACGT"].
Proof. vm_compute. reflexivity. Qed.

Example fasta_reader_keeps_last_line :
  Affine.fasta_reader two_files "x.fasta" = Some [Fasta.Fasta "x" "ACGTAC"].
Proof. vm_compute. reflexivity. Qed.

Example sequence_before_header_panics :
  Constant.readFasta_loop ("ACGT" +:+ NL) [] = None
  ∧ Affine.fasta_reader_loop "ACGT" [] = None.
Proof. vm_compute. split; reflexivity. Qed.

Example scan_longest_line :
  snd <$> Bufio.Scan (run_of "A" (2 ^ 16 - 1) +:+ NL +:+ "ACGT") = Some "ACGT".
Proof. vm_compute. reflexivity. Qed.

Example scan_line_too_long :
  Bufio.Scan (run_of "A" (2 ^ 16) +:+ NL +:+ "ACGT") = None.
Proof. vm_compute. reflexivity. Qed.

Example constant_main_runs :
  Constant.main two_files (Constant.Flags "x.fasta" "y.fasta" false 25 true "out.txt")
  = Some (Outcome [[0;0;0;0]; [0;5;0;0]; [0;0;10;0]; [0;0;0;15]; [0;0;0;0]]
            (Some ("out.txt", [(0%nat, 30); (1%nat, 0); (2%nat, 0); (3%nat, 0)]))).
Proof. vm_compute. reflexivity. Qed.

Example no_sequence_flag_is_fatal :
  Affine.main two_files (Affine.Flags "x.fasta" "" false 25 1 false "out.txt") = None.
Proof. reflexivity. Qed.

(** ** Wrap-around arithmetic *)

(** Bounds against the limits of [int]. *)
Ltac int_lia :=
  unfold GoInt.in_range, GoInt.min_int, GoInt.max_int in *; lia.

Section GoIntFacts.
Import GoInt.

Lemma wrap_in_range z : in_range z → wrap z = z.
Proof.
  unfold in_range, min_int, max_int, wrap. intros H.
  rewrite Z.mod_small; lia.
Qed.

Lemma wrap_bounds z : in_range (wrap z).
Proof.
  unfold in_range, min_int, max_int, wrap.
  pose proof (Z.mod_pos_bound (z + 2 ^ 63) (2 ^ 64)). lia.
Qed.

Lemma wrap_add_l a b : wrap (wrap a + b) = wrap (a + b).
Proof.
  unfold wrap.
  replace ((a + 2 ^ 63) mod 2 ^ 64 - 2 ^ 63 + b + 2 ^ 63)
    with ((a + 2 ^ 63) mod 2 ^ 64 + b) by lia.
  rewrite Z.add_mod_idemp_l by lia. f_equal. f_equal. lia.
Qed.

Lemma wrap_add_r a b : wrap (a + wrap b) = wrap (a + b).
Proof. rewrite (Z.add_comm a), wrap_add_l. f_equal. lia. Qed.

Lemma wrap_sub_l a b : wrap (wrap a - b) = wrap (a - b).
Proof. unfold Z.sub. apply wrap_add_l. Qed.

(** [-open - ext + x] holds the wrapped value of [x - open - ext]. *)
Lemma open_ext_wrap o e x : add (sub (neg o) e) x = wrap (x - o - e).
Proof.
  unfold add, sub, neg. rewrite wrap_sub_l, wrap_add_l. f_equal. lia.
Qed.

Lemma ext_wrap e x : add (neg e) x = wrap (x - e).
Proof. unfold add, neg. rewrite wrap_add_l. f_equal. lia. Qed.

End GoIntFacts.

(** ** [maxScore] *)

Lemma maxScore_fold l acc :
  fold_left (λ max score : Z, if score >? max then score else max) l acc
  = fold_left Z.max l acc.
Proof.
  revert acc. induction l as [|x l IH]; intros acc; simpl; [done|].
  rewrite IH. f_equal. destruct (Z.gtb_spec x acc); lia.
Qed.

Lemma fold_max_ge l acc : acc <= fold_left Z.max l acc.
Proof.
  revert acc. induction l as [|x l IH]; intros acc; simpl; [lia|].
  specialize (IH (Z.max acc x)). lia.
Qed.

Lemma maxScore_nonneg l : 0 <= maxScore l.
Proof. unfold maxScore. rewrite maxScore_fold. apply fold_max_ge. Qed.

Lemma maxScore3 a b c : maxScore [a; b; c] = Z.max 0 (Z.max a (Z.max b c)).
Proof. unfold maxScore. rewrite maxScore_fold. simpl. lia. Qed.

Lemma maxScore4 a b c : maxScore [a; b; c; 0] = Z.max 0 (Z.max a (Z.max b c)).
Proof. unfold maxScore. rewrite maxScore_fold. simpl. lia. Qed.

(** ** Cells of a matrix *)

Lemma shape_lookup n m mx i row :
  shape n m mx → mx !! i = Some row → length row = S m.
Proof.
  intros [_ Hall] Hrow. rewrite Forall_forall in Hall.
  apply Hall. eapply list_elem_of_lookup_2. exact Hrow.
Qed.

Lemma get_cell_shape n m mx a b :
  shape n m mx → (a ≤ n)%nat → (b ≤ m)%nat → get_cell mx a b = Some (cell mx a b).
Proof.
  intros Hs Ha Hb. unfold cell, get_cell.
  destruct (lookup_lt_is_Some_2 mx a) as [row Hrow]; [destruct Hs; lia|].
  rewrite Hrow. simpl.
  destruct (lookup_lt_is_Some_2 row b) as [v Hv].
  { rewrite (shape_lookup _ _ _ _ _ Hs Hrow). lia. }
  rewrite Hv. reflexivity.
Qed.

Lemma set_cell_shape n m mx i j v :
  shape n m mx → (i ≤ n)%nat → (j ≤ m)%nat →
  ∃ mx', set_cell mx i j v = Some mx' ∧ shape n m mx' ∧
    ∀ a b, cell mx' a b = if decide (a = i ∧ b = j) then v else cell mx a b.
Proof.
  intros Hs Hi Hj. unfold set_cell.
  destruct (lookup_lt_is_Some_2 mx i) as [row Hrow]; [destruct Hs; lia|].
  rewrite Hrow. simpl.
  pose proof (shape_lookup _ _ _ _ _ Hs Hrow) as Hlen.
  rewrite decide_True by lia.
  eexists. split; [reflexivity|]. split.
  - destruct Hs as [Hl Hall]. split; [by rewrite length_insert|].
    apply Forall_insert; [done|]. by rewrite length_insert.
  - intros a b. unfold cell, get_cell.
    destruct (decide (a = i)) as [->|Hne].
    + rewrite list_lookup_insert_eq by (destruct Hs; lia). simpl. rewrite Hrow. simpl.
      destruct (decide (b = j)) as [->|Hnb].
      * rewrite decide_True by done. rewrite list_lookup_insert_eq by lia. done.
      * rewrite decide_False by (intros [_ ?]; done).
        rewrite list_lookup_insert_ne by done. done.
    + rewrite decide_False by (intros [? _]; done).
      rewrite list_lookup_insert_ne by done. done.
Qed.

Lemma makeMatrix_shape n m : shape n m (makeMatrix n m).
Proof.
  unfold makeMatrix, shape. rewrite length_replicate. split; [lia|].
  apply Forall_replicate. rewrite length_replicate. lia.
Qed.

Lemma makeMatrix_cell n m a b : cell (makeMatrix n m) a b = 0.
Proof.
  unfold cell, get_cell, makeMatrix.
  destruct (replicate (n + 1) (replicate (m + 1) 0) !! a) as [row|] eqn:E; [|done].
  apply lookup_replicate in E as [-> _]. simpl.
  destruct (replicate (m + 1) 0 !! b) as [v|] eqn:E'; [|done].
  apply lookup_replicate in E' as [-> _]. done.
Qed.

(** Two matrices of one shape with the same cells are the same matrix. *)
Lemma matrix_ext n m (A B : matrix) :
  shape n m A → shape n m B →
  (∀ a b, (a ≤ n)%nat → (b ≤ m)%nat → cell A a b = cell B a b) → A = B.
Proof.
  intros HA HB Hc. apply list_eq_same_length with (S n); [apply HB|apply HA|].
  intros a ra rb Ha Hra Hrb.
  apply list_eq_same_length with (S m).
  { exact (shape_lookup _ _ _ _ _ HB Hrb). }
  { exact (shape_lookup _ _ _ _ _ HA Hra). }
  intros b x y Hb Hx Hy.
  specialize (Hc a b ltac:(lia) ltac:(lia)).
  unfold cell, get_cell in Hc. rewrite Hra, Hrb in Hc. simpl in Hc.
  rewrite Hx, Hy in Hc. done.
Qed.

(** Every entry of a matrix is one of its cells. *)
Lemma matrix_Forall (P : Z → Prop) n m (mx : matrix) :
  shape n m mx → (∀ a b, P (cell mx a b)) → Forall (Forall P) mx.
Proof.
  intros Hs Hc. apply Forall_lookup. intros a row Hrow.
  apply Forall_lookup. intros b v Hv.
  specialize (Hc a b). unfold cell, get_cell in Hc.
  rewrite Hrow in Hc. simpl in Hc. rewrite Hv in Hc. done.
Qed.

(** ** Loops *)

(** A loop over [a, a+1, ..., a+k-1] keeps an invariant indexed by the next
    index, and does not panic when no round does. *)
Lemma for_loop_invariant {St : Type} (P : nat → St → Prop)
    (body : nat → St → option St) (a k : nat) (s : St) :
  P a s →
  (∀ i t, (a ≤ i < a + k)%nat → P i t → ∃ t', body i t = Some t' ∧ P (S i) t') →
  ∃ s', for_loop (seq a k) body s = Some s' ∧ P (a + k)%nat s'.
Proof.
  revert a s. induction k as [|k IH]; intros a s Ha Hstep; simpl.
  - exists s. split; [done|]. by replace (a + 0)%nat with a by lia.
  - destruct (Hstep a s ltac:(lia) Ha) as (t & -> & Ht). simpl.
    destruct (IH (S a) t Ht) as (s' & Hs' & HP).
    { intros i u Hi. apply Hstep. lia. }
    exists s'. split; [done|]. by replace (a + S k)%nat with (S a + k)%nat by lia.
Qed.

Lemma for_loop_ext {St : Type} (f g : nat → St → option St) idx s :
  (∀ i t, f i t = g i t) → for_loop idx f s = for_loop idx g s.
Proof.
  intros H. revert s. induction idx as [|i idx IH]; intros s; simpl; [done|].
  rewrite H. destruct (g i s); simpl; auto.
Qed.

(** ** Filling a grid in row-major order

    Both builders visit the cells [(i, j)], [1 <= i <= n], [1 <= j <= m],
    row by row, and at each cell replace what the cell holds by a value
    that depends on what three earlier cells hold.  [view] reads what a
    state holds at a cell; [F f old a b] is what the cell [(a, b)] gets
    when the cells hold [f] and the cell itself held [old]. *)

Section RowMajor.
Context {St V : Type}.
Variables (n m : nat).
Variable good : St → Prop.
Variable view : St → nat → nat → V.
Variable F : (nat → nat → V) → V → nat → nat → V.
Variable body : nat → nat → St → option St.

Hypothesis F_local : ∀ f g old a b,
  f (a - 1)%nat (b - 1)%nat = g (a - 1)%nat (b - 1)%nat →
  f (a - 1)%nat b = g (a - 1)%nat b →
  f a (b - 1)%nat = g a (b - 1)%nat →
  F f old a b = F g old a b.

Hypothesis body_spec : ∀ i j s,
  good s → (1 ≤ i ≤ n)%nat → (1 ≤ j ≤ m)%nat →
  ∃ s', body i j s = Some s' ∧ good s' ∧
    ∀ a b, view s' a b
           = if decide (a = i ∧ b = j) then F (view s) (view s i j) i j
             else view s a b.

Lemma filled_cell s0 i j s :
  (1 ≤ i ≤ n)%nat → (1 ≤ j ≤ m)%nat → filled m good view F s0 i (j - 1) s →
  ∃ s', body i j s = Some s' ∧ filled m good view F s0 i j s'.
Proof using F_local body_spec.
  intros Hi Hj [Hg Hv].
  destruct (body_spec i j s Hg Hi Hj) as (s' & Hb & Hg' & Hv').
  exists s'. split; [done|]. split; [done|].
  intros a b. rewrite Hv'.
  destruct (decide (a = i ∧ b = j)) as [[-> ->]|Hne].
  - rewrite decide_True by (unfold visited; lia).
    assert (view s i j = view s0 i j) as ->.
    { rewrite Hv. apply decide_False. unfold visited. lia. }
    apply F_local; rewrite Hv'; symmetry; apply decide_False; lia.
  - rewrite (Hv a b).
    destruct (decide (visited m i (j - 1) a b)) as [Hvis|Hnv].
    + rewrite decide_True by (unfold visited in *; lia).
      apply F_local; rewrite Hv'; symmetry; apply decide_False;
        unfold visited in Hvis; lia.
    + rewrite decide_False; [done|]. unfold visited in *. lia.
Qed.

Lemma filled_row s0 i s :
  (1 ≤ i ≤ n)%nat → filled m good view F s0 i 0 s →
  ∃ s', for_loop (seq 1 m) (body i) s = Some s'
        ∧ filled m good view F s0 (S i) 0 s'.
Proof using F_local body_spec.
  intros Hi H0.
  destruct (for_loop_invariant (λ j t, filled m good view F s0 i (j - 1) t)
              (body i) 1 m s) as (s' & Hrun & Hs'); [done| |].
  - intros j t Hj Ht.
    destruct (filled_cell s0 i j t Hi ltac:(lia) Ht) as (t' & ? & ?).
    exists t'. split; [done|]. by replace (S j - 1)%nat with j by lia.
  - exists s'. split; [done|].
    replace (1 + m - 1)%nat with m in Hs' by lia.
    destruct Hs' as [Hg Hv]. split; [done|]. intros a b. rewrite Hv.
    destruct (decide (visited m i m a b)) as [Hvis|Hnv].
    + rewrite decide_True; [done|]. unfold visited in *. lia.
    + rewrite decide_False; [done|]. unfold visited in *. lia.
Qed.

(** The whole traversal, with the bound of the inner loop read from the
    state by [outer] as the programs do. *)
Variable outer : nat → St → option St.
Hypothesis outer_spec : ∀ i s, good s → outer i s = for_loop (seq 1 m) (body i) s.

Lemma row_major_fill s0 :
  good s0 →
  ∃ s', for_loop (seq 1 n) outer s0 = Some s' ∧ good s' ∧
    ∀ a b, view s' a b
           = if decide ((1 ≤ a ≤ n)%nat ∧ (1 ≤ b ≤ m)%nat)
             then F (view s') (view s0 a b) a b
             else view s0 a b.
Proof using F_local body_spec outer_spec.
  intros Hg0.
  destruct (for_loop_invariant (λ i t, filled m good view F s0 i 0 t) outer 1 n s0)
    as (s' & Hrun & [Hg Hv]).
  - split; [done|]. intros a b. rewrite decide_False; [done|].
    unfold visited. lia.
  - intros i t Hi Ht. rewrite outer_spec by apply Ht.
    apply filled_row; [lia|done].
  - exists s'. split; [done|]. split; [done|].
    intros a b. rewrite Hv.
    destruct (decide (visited m (1 + n) 0 a b)) as [Hvis|Hnv].
    + rewrite decide_True; [done|]. unfold visited in *. lia.
    + rewrite decide_False; [done|]. unfold visited in *. lia.
Qed.
End RowMajor.

(** ** Symbols and substitution scores *)

Lemma byte_at_Some s k :
  (k < String.length s)%nat → ∃ x, byte_at s k = Some x ∧ 0 <= x < 256.
Proof.
  revert k. induction s as [|c s IH]; intros k Hk; simpl in Hk; [lia|].
  destruct k as [|k].
  - unfold byte_at. simpl. eexists. split; [reflexivity|].
    pose proof (N_ascii_bounded c). lia.
  - destruct (IH k ltac:(lia)) as (x & Hx & Hr). exists x. split; [|done].
    unfold byte_at in *. simpl. done.
Qed.

Lemma constant_index k :
  map_at Constant.baseInt k
  = if decide (k = 65) then 0%nat else if decide (k = 67) then 1%nat
    else if decide (k = 71) then 2%nat else if decide (k = 84) then 3%nat
    else if decide (k = 78) then 4%nat else 0%nat.
Proof.
  unfold map_at, Constant.baseInt.
  rewrite !lookup_insert, lookup_singleton.
  repeat case_decide; subst; try done; lia.
Qed.

Lemma affine_index k :
  map_at Affine.baseInt k
  = if decide (k = 65) then 0%nat else if decide (k = 67) then 1%nat
    else if decide (k = 71) then 2%nat else if decide (k = 84) then 3%nat
    else 0%nat.
Proof.
  unfold map_at, Affine.baseInt.
  rewrite !lookup_insert, lookup_singleton.
  repeat case_decide; subst; try done; lia.
Qed.

Lemma constant_substitution_total x y :
  ∃ s, Constant.substitution x y = Some s ∧ -4 <= s <= 5.
Proof.
  unfold Constant.substitution. rewrite !constant_index.
  repeat case_decide; (eexists; split; [reflexivity|lia]).
Qed.

Lemma affine_substitution_total x y :
  ∃ s, Affine.substitution x y = Some s ∧ -4 <= s <= 5.
Proof.
  unfold Affine.substitution. rewrite !affine_index.
  repeat case_decide; (eexists; split; [reflexivity|lia]).
Qed.

Lemma pair_score_total subst seqA seqB i j :
  (∀ x y, ∃ s, subst x y = Some s ∧ -4 <= s <= 5) →
  (1 ≤ i ≤ String.length seqA)%nat → (1 ≤ j ≤ String.length seqB)%nat →
  ∃ s, pair_score subst seqA seqB i j = Some s ∧ -4 <= s <= 5.
Proof.
  intros Hs Hi Hj. unfold pair_score.
  destruct (byte_at_Some seqA (i - 1) ltac:(lia)) as (x & -> & _).
  destruct (byte_at_Some seqB (j - 1) ltac:(lia)) as (y & -> & _).
  simpl. apply Hs.
Qed.

(** ** The constant-penalty builder, cell by cell *)

Lemma constant_cell_spec diag penalty seqA seqB i j mx :
  shape (String.length seqA) (String.length seqB) mx →
  (1 ≤ i ≤ String.length seqA)%nat → (1 ≤ j ≤ String.length seqB)%nat →
  ∃ mx', Constant.populate_cell diag penalty seqA seqB i j mx = Some mx' ∧
    shape (String.length seqA) (String.length seqB) mx' ∧
    ∀ a b, cell mx' a b
           = if decide (a = i ∧ b = j)
             then constant_value diag penalty seqA seqB (cell mx) (cell mx i j) i j
             else cell mx a b.
Proof.
  intros Hs Hi Hj. unfold Constant.populate_cell, constant_value, excluded.
  destruct (bool_decide (i = j) && diag).
  - apply set_cell_shape; [done|lia|lia].
  - destruct (pair_score_total Constant.substitution seqA seqB i j
                constant_substitution_total Hi Hj) as (s & Hsc & _).
    rewrite Hsc. unfold pair_score in Hsc.
    destruct (byte_at seqA (i - 1)) as [x|]; [|done].
    destruct (byte_at seqB (j - 1)) as [y|]; [|done].
    simpl in *. rewrite Hsc. simpl.
    rewrite !(get_cell_shape _ _ mx) by (done || lia). simpl.
    apply set_cell_shape; [done|lia|lia].
Qed.

Lemma constant_populate diag penalty seqA seqB :
  ∃ R, Constant.build diag penalty seqA seqB = Some R ∧
    shape (String.length seqA) (String.length seqB) R ∧
    ∀ a b, cell R a b
           = if decide ((1 ≤ a ≤ String.length seqA)%nat
                        ∧ (1 ≤ b ≤ String.length seqB)%nat)
             then constant_value diag penalty seqA seqB (cell R) 0 a b
             else 0.
Proof.
  set (n := String.length seqA). set (m := String.length seqB).
  unfold Constant.build, Constant.populate. fold n m.
  destruct (row_major_fill n m (shape n m) cell
              (constant_value diag penalty seqA seqB)
              (Constant.populate_cell diag penalty seqA seqB)) with
    (outer := λ (i : nat) (mx : matrix),
       row0 ← mx !! 0%nat;
       for_loop (seq 1 (length row0 - 1))
         (λ j mx', Constant.populate_cell diag penalty seqA seqB i j mx') mx)
    (s0 := makeMatrix n m) as (R & Hrun & HR & Hcells).
  - intros f g old a b H1 H2 H3. unfold constant_value. by rewrite H1, H2, H3.
  - intros i j s. apply constant_cell_spec.
  - intros i s Hs.
    destruct (lookup_lt_is_Some_2 s 0%nat) as [row0 Hrow]; [destruct Hs; lia|].
    rewrite Hrow. simpl. rewrite (shape_lookup _ _ _ _ _ Hs Hrow).
    by replace (S m - 1)%nat with m by lia.
  - apply makeMatrix_shape.
  - exists R. split.
    + rewrite <- Hrun. f_equal. pose proof (makeMatrix_shape n m) as [-> _]. f_equal. lia.
    + split; [done|]. intros a b. rewrite Hcells, !makeMatrix_cell. done.
Qed.

(** ** The affine-gap builder, cell by cell *)

Lemma affine_cell_spec diag open ext seqA seqB i j st :
  affine_good (String.length seqA) (String.length seqB) st →
  (1 ≤ i ≤ String.length seqA)%nat → (1 ≤ j ≤ String.length seqB)%nat →
  ∃ st', Affine.populate_cell diag open ext seqA seqB i j st = Some st' ∧
    affine_good (String.length seqA) (String.length seqB) st' ∧
    ∀ a b, affine_view st' a b
           = if decide (a = i ∧ b = j)
             then affine_value diag open ext seqA seqB (affine_view st)
                    (affine_view st i j) i j
             else affine_view st a b.
Proof.
  set (n := String.length seqA). set (m := String.length seqB).
  intros (HM & HA & HB) Hi Hj.
  unfold Affine.populate_cell, affine_value, excluded.
  destruct (bool_decide (i = j) && diag).
  - simpl.
    destruct (set_cell_shape n m (Affine.matches st) i j 0 HM) as (M' & -> & HM' & Hc);
      [lia|lia|].
    simpl. eexists. split; [reflexivity|]. split; [unfold affine_good; simpl; split_and!; assumption|].
    intros a b. unfold affine_view. simpl. rewrite Hc. case_decide as Hd; [destruct Hd as [-> ->]|]; done.
  - destruct (pair_score_total Affine.substitution seqA seqB i j
                affine_substitution_total Hi Hj) as (s & Hsc & _).
    rewrite Hsc. unfold pair_score in Hsc.
    destruct (byte_at seqA (i - 1)) as [x|]; [|done].
    destruct (byte_at seqB (j - 1)) as [y|]; [|done].
    simpl in Hsc. simpl. rewrite Hsc. simpl.
    (* round 0 *)
    destruct (set_cell_shape n m (Affine.matches st) i j
      (maxScore [GoInt.add (cell (Affine.matches st) (i - 1) (j - 1)) s;
                 GoInt.add (cell (Affine.gapA st) (i - 1) (j - 1)) s;
                 GoInt.add (cell (Affine.gapB st) (i - 1) (j - 1)) s]) HM)
      as (M1 & Hw1 & HM1 & Hc1); [lia|lia|].
    match goal with |- context [Affine.round ?o ?e ?sc i j 0%nat ?x] =>
      assert (Affine.round o e sc i j 0%nat x
              = Some (<[0%nat := maxScore
                   [GoInt.add (cell (Affine.matches st) (i - 1) (j - 1)) s;
                    GoInt.add (cell (Affine.gapA st) (i - 1) (j - 1)) s;
                    GoInt.add (cell (Affine.gapB st) (i - 1) (j - 1)) s]]> [0; 0; 0],
                 Affine.Store M1 (Affine.gapA st) (Affine.gapB st))) as ->
    end.
    { unfold Affine.round. simpl.
      rewrite !(get_cell_shape n m) by (done || lia). simpl. by rewrite Hw1. }
    simpl.
    (* round 1 *)
    destruct (set_cell_shape n m (Affine.gapA st) i j
      (maxScore [GoInt.add (GoInt.sub (GoInt.neg open) ext) (cell (Affine.matches st) i (j - 1));
                 GoInt.add (GoInt.neg ext) (cell (Affine.gapA st) i (j - 1));
                 GoInt.add (GoInt.sub (GoInt.neg open) ext) (cell (Affine.gapB st) i (j - 1))]) HA)
      as (A1 & Hwa & HA1 & Hca); [lia|lia|].
    match goal with |- context [Affine.round ?o ?e ?sc i j 1%nat (?mx, ?x)] =>
      assert (Affine.round o e sc i j 1%nat (mx, x)
              = Some (<[1%nat := maxScore
                   [GoInt.add (GoInt.sub (GoInt.neg open) ext) (cell (Affine.matches st) i (j - 1));
                    GoInt.add (GoInt.neg ext) (cell (Affine.gapA st) i (j - 1));
                    GoInt.add (GoInt.sub (GoInt.neg open) ext) (cell (Affine.gapB st) i (j - 1))]]> mx,
                 Affine.Store M1 A1 (Affine.gapB st))) as ->
    end.
    { unfold Affine.round. simpl.
      rewrite !(get_cell_shape n m) by (done || lia). simpl.
      rewrite (Hc1 i (j - 1)%nat), decide_False by lia. by rewrite Hwa. }
    simpl.
    (* round 2 *)
    destruct (set_cell_shape n m (Affine.gapB st) i j
      (maxScore [GoInt.add (GoInt.sub (GoInt.neg open) ext) (cell (Affine.matches st) (i - 1) j);
                 GoInt.add (GoInt.sub (GoInt.neg open) ext) (cell (Affine.gapA st) (i - 1) j);
                 GoInt.add (GoInt.neg ext) (cell (Affine.gapB st) (i - 1) j)]) HB)
      as (B1 & Hwb & HB1 & Hcb); [lia|lia|].
    match goal with |- context [Affine.round ?o ?e ?sc i j 2%nat (?mx, ?x)] =>
      assert (Affine.round o e sc i j 2%nat (mx, x)
              = Some (<[2%nat := maxScore
                   [GoInt.add (GoInt.sub (GoInt.neg open) ext) (cell (Affine.matches st) (i - 1) j);
                    GoInt.add (GoInt.sub (GoInt.neg open) ext) (cell (Affine.gapA st) (i - 1) j);
                    GoInt.add (GoInt.neg ext) (cell (Affine.gapB st) (i - 1) j)]]> mx,
                 Affine.Store M1 A1 B1)) as ->
    end.
    { unfold Affine.round. simpl.
      rewrite !(get_cell_shape n m) by (done || lia). simpl.
      rewrite (Hc1 (i - 1)%nat j), decide_False by lia.
      rewrite (Hca (i - 1)%nat j), decide_False by lia. by rewrite Hwb. }
    simpl.
    (* the composite *)
    match goal with |- context [set_cell M1 i j ?v] =>
      destruct (set_cell_shape n m M1 i j v HM1)
        as (M2 & -> & HM2 & Hc2); [lia|lia|] end. simpl.
    eexists. split; [reflexivity|]. split; [unfold affine_good; simpl; split_and!; assumption|].
    intros a b. unfold affine_view, affine_rounds. simpl.
    rewrite Hc2, Hca, Hcb, Hc1. case_decide as Hd; [destruct Hd as [-> ->]|]; done.
Qed.

Lemma affine_populate diag open ext seqA seqB :
  ∃ st, Affine.build diag open ext seqA seqB = Some st ∧
    affine_good (String.length seqA) (String.length seqB) st ∧
    ∀ a b, affine_view st a b
           = if decide ((1 ≤ a ≤ String.length seqA)%nat
                        ∧ (1 ≤ b ≤ String.length seqB)%nat)
             then affine_value diag open ext seqA seqB (affine_view st) (0, 0, 0) a b
             else (0, 0, 0).
Proof.
  set (n := String.length seqA). set (m := String.length seqB).
  unfold Affine.build, Affine.populate. fold n m. simpl.
  destruct (row_major_fill n m (affine_good n m) affine_view
              (affine_value diag open ext seqA seqB)
              (Affine.populate_cell diag open ext seqA seqB)) with
    (outer := λ (i : nat) (s : Affine.store),
       row0 ← Affine.matches s !! 0%nat;
       for_loop (seq 1 (length row0 - 1))
         (λ j s', Affine.populate_cell diag open ext seqA seqB i j s') s)
    (s0 := Affine.Store (makeMatrix n m) (makeMatrix n m) (makeMatrix n m))
    as (R & Hrun & HR & Hcells).
  - intros f g old a b H1 H2 H3. unfold affine_value, affine_rounds.
    by rewrite H1, H2, H3.
  - intros i j s. apply affine_cell_spec.
  - intros i s (Hs & _ & _).
    destruct (lookup_lt_is_Some_2 (Affine.matches s) 0%nat) as [row0 Hrow];
      [destruct Hs; lia|].
    rewrite Hrow. simpl. rewrite (shape_lookup _ _ _ _ _ Hs Hrow).
    by replace (S m - 1)%nat with m by lia.
  - unfold affine_good. simpl. split_and!; apply makeMatrix_shape.
  - exists R. split.
    + rewrite <- Hrun. f_equal.
      pose proof (makeMatrix_shape n m) as [-> _]. f_equal. lia.
    + split; [done|]. intros a b. rewrite Hcells.
      unfold affine_view at 2 3. simpl. rewrite !makeMatrix_cell. done.
Qed.

(** ** No overflow for non-negative penalties *)

Lemma excluded_false diag a b :
  excluded diag a b = false ↔ ¬ (a = b ∧ diag = true).
Proof.
  unfold excluded. destruct diag; rewrite ?andb_true_r, ?andb_false_r.
  - rewrite bool_decide_eq_false. split; [intros H [? _]; auto|auto].
  - split; [intros _ [_ ?]; discriminate|auto].
Qed.

(** With a penalty [0 <= p] every cell of the constant-penalty matrix lies
    between 0 and five times the smaller of its two indices. *)
Lemma constant_bounds diag penalty seqA seqB R :
  0 <= penalty <= GoInt.max_int →
  5 * Z.of_nat (String.length seqA `min` String.length seqB) <= GoInt.max_int →
  Constant.build diag penalty seqA seqB = Some R →
  ∀ a b, 0 <= cell R a b <= 5 * Z.of_nat (a `min` b).
Proof.
  intros Hp Hsz Hb.
  destruct (constant_populate diag penalty seqA seqB) as (R' & Hb' & _ & Hc).
  rewrite Hb in Hb'. injection Hb' as <-.
  assert (∀ k a b, (a + b < k)%nat → 0 <= cell R a b <= 5 * Z.of_nat (a `min` b)) as H.
  { induction k as [|k IH]; intros a b Hk; [lia|].
    rewrite Hc. case_decide as Hin; [|lia].
    unfold constant_value. destruct (excluded diag a b); [lia|].
    destruct (pair_score_total Constant.substitution seqA seqB a b
                constant_substitution_total) as (s & -> & Hs); [lia|lia|].
    simpl. rewrite maxScore4.
    pose proof (IH (a - 1)%nat (b - 1)%nat ltac:(lia)).
    pose proof (IH (a - 1)%nat b ltac:(lia)).
    pose proof (IH a (b - 1)%nat ltac:(lia)).
    unfold GoInt.add, GoInt.sub.
    rewrite !wrap_in_range by int_lia.
    lia. }
  intros a b. apply (H (S (a + b))). lia.
Qed.

(** ** Claims about the constant-penalty builder *)

Lemma build_constant_unique diag penalty seqA seqB R :
  Constant.build diag penalty seqA seqB = Some R →
  shape (String.length seqA) (String.length seqB) R ∧
  ∀ a b, cell R a b
         = if decide ((1 ≤ a ≤ String.length seqA)%nat
                      ∧ (1 ≤ b ≤ String.length seqB)%nat)
           then constant_value diag penalty seqA seqB (cell R) 0 a b
           else 0.
Proof.
  intros Hb. destruct (constant_populate diag penalty seqA seqB) as (R' & Hb' & Hs & Hc).
  rewrite Hb in Hb'. by injection Hb' as <-.
Qed.

Lemma constant_wrapped diag penalty seqA seqB R i j s :
  Constant.build diag penalty seqA seqB = Some R →
  (1 ≤ i ≤ String.length seqA)%nat → (1 ≤ j ≤ String.length seqB)%nat →
  excluded diag i j = false →
  pair_score Constant.substitution seqA seqB i j = Some s →
  cell R i j
  = Z.max 0 (Z.max (GoInt.wrap (cell R (i - 1) (j - 1) + s))
              (Z.max (GoInt.wrap (cell R (i - 1) j - penalty))
                     (GoInt.wrap (cell R i (j - 1) - penalty)))).
Proof.
  intros Hb Hi Hj Hex Hsc.
  destruct (build_constant_unique _ _ _ _ _ Hb) as [_ Hc].
  rewrite Hc at 1. rewrite decide_True by lia.
  unfold constant_value. rewrite Hex, Hsc. simpl. apply maxScore4.
Qed.

Lemma constant_exact diag penalty seqA seqB R i j s :
  0 <= penalty <= GoInt.max_int →
  5 * Z.of_nat (String.length seqA `min` String.length seqB) <= GoInt.max_int →
  Constant.build diag penalty seqA seqB = Some R →
  (1 ≤ i ≤ String.length seqA)%nat → (1 ≤ j ≤ String.length seqB)%nat →
  excluded diag i j = false →
  pair_score Constant.substitution seqA seqB i j = Some s →
  cell R i j
  = Z.max 0 (Z.max (cell R (i - 1) (j - 1) + s)
              (Z.max (cell R (i - 1) j - penalty) (cell R i (j - 1) - penalty))).
Proof.
  intros Hp Hsz Hb Hi Hj Hex Hsc.
  rewrite (constant_wrapped _ _ _ _ _ _ _ _ Hb Hi Hj Hex Hsc).
  destruct (pair_score_total Constant.substitution seqA seqB i j
              constant_substitution_total Hi Hj) as (s' & Hsc' & Hsr).
  rewrite Hsc in Hsc'. injection Hsc' as <-.
  pose proof (constant_bounds diag penalty seqA seqB R Hp Hsz Hb) as Hbd.
  pose proof (Hbd (i - 1)%nat (j - 1)%nat).
  pose proof (Hbd (i - 1)%nat j). pose proof (Hbd i (j - 1)%nat).
  rewrite !wrap_in_range
    by int_lia.
  done.
Qed.

(** C3. The constant-penalty builder returns an
    [(n+1)]-by-[(m+1)] matrix whose row 0 and column 0 are 0 and whose
    cell [(i, j)], [1 <= i <= n], [1 <= j <= m], when the diagonal flag
    does not exclude it, is the maximum of 0, the back cell plus the
    substitution score of the two symbols, the left cell minus the penalty
    and the cell above minus the penalty, in Go's arithmetic; for a
    penalty [p >= 0] no operation wraps around and the maximum is the one
    of the exact integers. *)
Theorem constant_recurrence diag penalty seqA seqB :
  ∃ R, Constant.build diag penalty seqA seqB = Some R ∧
    shape (String.length seqA) (String.length seqB) R ∧
    (∀ j, (j ≤ String.length seqB)%nat → get_cell R 0 j = Some 0) ∧
    (∀ i, (i ≤ String.length seqA)%nat → get_cell R i 0 = Some 0) ∧
    ∀ i j, (1 ≤ i ≤ String.length seqA)%nat → (1 ≤ j ≤ String.length seqB)%nat →
      ¬ (i = j ∧ diag = true) →
      ∃ s, pair_score Constant.substitution seqA seqB i j = Some s ∧
        get_cell R i j
        = Some (Z.max 0 (Z.max (GoInt.wrap (cell R (i - 1) (j - 1) + s))
                          (Z.max (GoInt.wrap (cell R (i - 1) j - penalty))
                                 (GoInt.wrap (cell R i (j - 1) - penalty))))) ∧
        (0 <= penalty <= GoInt.max_int →
         5 * Z.of_nat (String.length seqA `min` String.length seqB) <= GoInt.max_int →
         get_cell R i j
         = Some (Z.max 0 (Z.max (cell R (i - 1) (j - 1) + s)
                           (Z.max (cell R (i - 1) j - penalty)
                                  (cell R i (j - 1) - penalty))))).
Proof.
  destruct (constant_populate diag penalty seqA seqB) as (R & Hb & Hs & Hc).
  exists R. split; [done|]. split; [done|].
  split; [|split].
  - intros j Hj. rewrite (get_cell_shape _ _ _ _ _ Hs) by lia.
    rewrite Hc, decide_False by lia. done.
  - intros i Hi. rewrite (get_cell_shape _ _ _ _ _ Hs) by lia.
    rewrite Hc, decide_False by lia. done.
  - intros i j Hi Hj Hex. apply excluded_false in Hex.
    destruct (pair_score_total Constant.substitution seqA seqB i j
                constant_substitution_total Hi Hj) as (s & Hsc & Hsr).
    exists s. split; [done|].
    rewrite (get_cell_shape _ _ _ _ _ Hs) by lia.
    split.
    + f_equal. by eapply constant_wrapped.
    + intros Hp Hsz. f_equal. by eapply constant_exact.
Qed.

Lemma constant_value_nonneg diag penalty seqA seqB f old a b :
  0 <= constant_value diag penalty seqA seqB f old a b.
Proof.
  unfold constant_value. destruct (excluded diag a b); [done|apply maxScore_nonneg].
Qed.

Lemma affine_value_nonneg diag open ext seqA seqB f a b :
  let v := affine_value diag open ext seqA seqB f (0, 0, 0) a b in
  0 <= v.1.1 ∧ 0 <= v.1.2 ∧ 0 <= v.2.
Proof.
  unfold affine_value, affine_rounds. destruct (excluded diag a b); simpl; [done|].
  split_and!; apply maxScore_nonneg.
Qed.

(** C4. Whatever the sequences, the penalties and the diagonal flag, each
    builder returns, and every entry of the constant-penalty matrix and of
    the three affine matrices is at least 0. *)
Theorem cells_nonnegative diag penalty open ext seqA seqB :
  (∃ R, Constant.build diag penalty seqA seqB = Some R ∧
        Forall (Forall (λ v, 0 <= v)) R) ∧
  (∃ st, Affine.build diag open ext seqA seqB = Some st ∧
         Forall (Forall (λ v, 0 <= v)) (Affine.matches st) ∧
         Forall (Forall (λ v, 0 <= v)) (Affine.gapA st) ∧
         Forall (Forall (λ v, 0 <= v)) (Affine.gapB st)).
Proof.
  split.
  - destruct (constant_populate diag penalty seqA seqB) as (R & Hb & Hs & Hc).
    exists R. split; [done|]. eapply matrix_Forall; [exact Hs|].
    intros a b. rewrite Hc. case_decide; [apply constant_value_nonneg|done].
  - destruct (affine_populate diag open ext seqA seqB) as (st & Hb & (HM & HA & HB) & Hc).
    exists st. split; [done|].
    assert (∀ a b, 0 <= cell (Affine.matches st) a b ∧ 0 <= cell (Affine.gapA st) a b
                   ∧ 0 <= cell (Affine.gapB st) a b) as Hall.
    { intros a b. specialize (Hc a b). unfold affine_view at 1 in Hc.
      pose proof (affine_value_nonneg diag open ext seqA seqB (affine_view st) a b) as Hn.
      case_decide.
      - rewrite <- Hc in Hn. exact Hn.
      - injection Hc as -> -> ->. done. }
    split_and!; (eapply matrix_Forall; [eassumption|]); intros a b; apply Hall.
Qed.

(** C7. With the diagonal flag set, the cell [(i, i)] of the matrix each
    builder returns is 0 for every [1 <= i <= min(n, m)]. *)
Theorem diagonal_excluded penalty open ext seqA seqB :
  (∃ R, Constant.build true penalty seqA seqB = Some R ∧
        ∀ i, (1 ≤ i ≤ String.length seqA `min` String.length seqB)%nat →
             get_cell R i i = Some 0) ∧
  (∃ st, Affine.build true open ext seqA seqB = Some st ∧
         ∀ i, (1 ≤ i ≤ String.length seqA `min` String.length seqB)%nat →
              get_cell (Affine.matches st) i i = Some 0).
Proof.
  split.
  - destruct (constant_populate true penalty seqA seqB) as (R & Hb & Hs & Hc).
    exists R. split; [done|]. intros i Hi.
    rewrite (get_cell_shape _ _ _ _ _ Hs) by lia.
    rewrite Hc, decide_True by lia.
    unfold constant_value, excluded. by rewrite bool_decide_eq_true_2.
  - destruct (affine_populate true open ext seqA seqB) as (st & Hb & (HM & _) & Hc).
    exists st. split; [done|]. intros i Hi.
    rewrite (get_cell_shape _ _ _ _ _ HM) by lia.
    specialize (Hc i i). rewrite decide_True in Hc by lia.
    unfold affine_value, excluded in Hc. rewrite bool_decide_eq_true_2 in Hc by done.
    simpl in Hc. unfold affine_view in Hc. by injection Hc as -> _ _.
Qed.

(** ** Claims about the affine-gap builder *)

Lemma affine_rounds_wrap open ext score f a b :
  affine_rounds open ext score f a b = affine_rounds_wrapped open ext score f a b.
Proof.
  unfold affine_rounds, affine_rounds_wrapped. cbv zeta.
  rewrite !maxScore3, !open_ext_wrap, !ext_wrap. reflexivity.
Qed.

Lemma wrap_exact lo hi z :
  GoInt.min_int <= lo → hi <= GoInt.max_int → lo <= z <= hi → GoInt.wrap z = z.
Proof. intros. apply wrap_in_range. unfold GoInt.in_range. lia. Qed.

Lemma affine_rounds_no_overflow open ext score f a b B :
  0 <= open → 0 <= ext → open + ext <= - GoInt.min_int → -4 <= score <= 5 →
  B <= GoInt.max_int →
  triple_in 0 (B - 5) (f (a - 1)%nat (b - 1)%nat) →
  triple_in 0 B (f (a - 1)%nat b) → triple_in 0 B (f a (b - 1)%nat) →
  affine_rounds_wrapped open ext score f a b = affine_rounds_exact open ext score f a b
  ∧ triple_in 0 B (affine_rounds_exact open ext score f a b).
Proof.
  intros Ho He Hoe Hs HB Hback Hleft Habove.
  unfold affine_rounds_wrapped, affine_rounds_exact, triple_in in *. cbv zeta.
  destruct (f (a - 1)%nat (b - 1)%nat) as [[x1 x2] x3].
  destruct (f (a - 1)%nat b) as [[y1 y2] y3].
  destruct (f a (b - 1)%nat) as [[z1 z2] z3].
  cbn [fst snd] in *.
  assert (GoInt.min_int <= -4) by (unfold GoInt.min_int; lia).
  rewrite (wrap_exact (-4) B (x1 + score)), (wrap_exact (-4) B (x2 + score)),
    (wrap_exact (-4) B (x3 + score)) by lia.
  rewrite (wrap_exact GoInt.min_int B (z1 - open - ext)),
    (wrap_exact GoInt.min_int B (z2 - ext)),
    (wrap_exact GoInt.min_int B (z3 - open - ext)) by lia.
  rewrite (wrap_exact GoInt.min_int B (y1 - open - ext)),
    (wrap_exact GoInt.min_int B (y2 - open - ext)),
    (wrap_exact GoInt.min_int B (y3 - ext)) by lia.
  split; [reflexivity|]. lia.
Qed.

(** With costs [0 <= g_o], [0 <= g_e] and [g_o + g_e <= 2^63] every cell of
    the three affine matrices lies between 0 and five times the smaller of
    its two indices. *)
Lemma affine_bounds diag open ext seqA seqB st :
  0 <= open → 0 <= ext → open + ext <= - GoInt.min_int →
  5 * Z.of_nat (String.length seqA `min` String.length seqB) <= GoInt.max_int →
  Affine.build diag open ext seqA seqB = Some st →
  ∀ a b, triple_in 0 (5 * Z.of_nat (a `min` b)) (affine_view st a b).
Proof.
  intros Ho He Hoe Hsz Hb.
  destruct (affine_populate diag open ext seqA seqB) as (st' & Hb' & _ & Hc).
  rewrite Hb in Hb'. injection Hb' as <-.
  assert (∀ k a b, (a + b < k)%nat →
            triple_in 0 (5 * Z.of_nat (a `min` b)) (affine_view st a b)) as H.
  { induction k as [|k IH]; intros a b Hk; [lia|].
    rewrite Hc. case_decide as Hin; [|unfold triple_in; cbn [fst snd]; lia].
    unfold affine_value.
    destruct (excluded diag a b); [unfold triple_in; cbn [fst snd]; lia|].
    destruct (pair_score_total Affine.substitution seqA seqB a b
                affine_substitution_total) as (s & -> & Hs); [lia|lia|].
    cbv zeta. change (default 0 (Some s)) with s.
    rewrite affine_rounds_wrap, maxScore3.
    destruct (affine_rounds_no_overflow open ext s (affine_view st) a b
                (5 * Z.of_nat (a `min` b))) as [-> Hr]; try done.
    - clear -Hsz Hin. lia.
    - replace (5 * Z.of_nat (a `min` b) - 5)
        with (5 * Z.of_nat ((a - 1) `min` (b - 1))) by (clear -Hin; lia).
      apply IH. lia.
    - pose proof (IH (a - 1)%nat b ltac:(lia)) as Hq.
      assert (Z.of_nat ((a - 1) `min` b) <= Z.of_nat (a `min` b)) by (clear; lia).
      unfold triple_in in *. clear -Hq H. lia.
    - pose proof (IH a (b - 1)%nat ltac:(lia)) as Hq.
      assert (Z.of_nat (a `min` (b - 1)) <= Z.of_nat (a `min` b)) by (clear; lia).
      unfold triple_in in *. clear -Hq H. lia.
    - unfold triple_in in *. cbn [fst snd]. clear -Hr. lia. }
  intros a b. apply (H (S (a + b))). lia.
Qed.

Lemma affine_main_inv w f out :
  Affine.main w f = Some out →
  ∃ st prof,
    printed out = (if Affine.mat f then Affine.matches st else []) ∧
    sums (Affine.matches st) = Some prof ∧
    written out = writeScores w (Affine.out f) prof ∧
    ∃ recA recB seqsA seqsB,
      Affine.fasta_reader w (Affine.seqA f) = Some (recA :: seqsA) ∧
      Affine.fasta_reader w (Affine.seqB f) = Some (recB :: seqsB) ∧
      Affine.build (Affine.diag f) (Affine.open f) (Affine.ext f)
        (Fasta.seq recA) (Fasta.seq recB) = Some st.
Proof.
  unfold Affine.main. case_match; [done|].
  destruct (Affine.fasta_reader w (Affine.seqA f)) as [[|recA seqsA]|]; [done| |done].
  destruct (Affine.fasta_reader w (Affine.seqB f)) as [[|recB seqsB]|]; [done| |done].
  simpl.
  destruct (Affine.build _ _ _ _ _) as [st|] eqn:Hb; [|done]. simpl.
  destruct (sums (Affine.matches st)) as [prof|] eqn:Hs; [|done]. simpl.
  intros [= <-]. exists st, prof. simpl. split_and!; try done.
  by exists recA, recB, seqsA, seqsB.
Qed.

Lemma build_affine_unique diag open ext seqA seqB st :
  Affine.build diag open ext seqA seqB = Some st →
  affine_good (String.length seqA) (String.length seqB) st ∧
  ∀ a b, affine_view st a b
         = if decide ((1 ≤ a ≤ String.length seqA)%nat
                      ∧ (1 ≤ b ≤ String.length seqB)%nat)
           then affine_value diag open ext seqA seqB (affine_view st) (0, 0, 0) a b
           else (0, 0, 0).
Proof.
  intros Hb. destruct (affine_populate diag open ext seqA seqB) as (st' & Hb' & Hs & Hc).
  rewrite Hb in Hb'. by injection Hb' as <-.
Qed.

Lemma affine_wrapped diag open ext seqA seqB st i j s :
  Affine.build diag open ext seqA seqB = Some st →
  (1 ≤ i ≤ String.length seqA)%nat → (1 ≤ j ≤ String.length seqB)%nat →
  excluded diag i j = false →
  pair_score Affine.substitution seqA seqB i j = Some s →
  affine_cell_wrapped open ext s (cell (Affine.matches st))
    (cell (Affine.gapA st)) (cell (Affine.gapB st)) i j.
Proof.
  intros Hb Hi Hj Hex Hsc.
  destruct (build_affine_unique _ _ _ _ _ _ Hb) as [_ Hc].
  pose proof (Hc i j) as Hv. rewrite decide_True in Hv by lia.
  unfold affine_value in Hv. rewrite Hex, Hsc in Hv. cbv zeta in Hv.
  change (default 0 (Some s)) with s in Hv.
  rewrite affine_rounds_wrap, maxScore3 in Hv.
  unfold affine_view at 1 in Hv. unfold affine_rounds_wrapped in Hv.
  cbn [fst snd affine_view] in Hv. injection Hv as HvM HvA HvB.
  eexists. split; [reflexivity|].
  split; [exact HvA|]. split; [exact HvB|].
  rewrite HvM at 1. rewrite <- HvA, <- HvB. clear. lia.
Qed.

Lemma affine_exact diag open ext seqA seqB st i j s :
  0 <= open → 0 <= ext → open + ext <= 2 ^ 63 →
  5 * Z.of_nat (String.length seqA `min` String.length seqB) <= GoInt.max_int →
  Affine.build diag open ext seqA seqB = Some st →
  (1 ≤ i ≤ String.length seqA)%nat → (1 ≤ j ≤ String.length seqB)%nat →
  excluded diag i j = false →
  pair_score Affine.substitution seqA seqB i j = Some s →
  affine_cell_exact open ext s (cell (Affine.matches st))
    (cell (Affine.gapA st)) (cell (Affine.gapB st)) i j.
Proof.
  intros Ho He Hoe Hsz Hb Hi Hj Hex Hsc.
  pose proof (affine_wrapped _ _ _ _ _ _ _ _ _ Hb Hi Hj Hex Hsc) as Hw.
  destruct (pair_score_total Affine.substitution seqA seqB i j
              affine_substitution_total Hi Hj) as (s' & Hsc' & Hsr).
  rewrite Hsc in Hsc'. injection Hsc' as <-.
  pose proof (affine_bounds diag open ext seqA seqB st Ho He
                ltac:(unfold GoInt.min_int; lia) Hsz Hb) as Hbd.
  destruct Hw as (m0 & -> & HA & HB & HM).
  pose proof (Hbd (i - 1)%nat (j - 1)%nat) as (H1 & H2 & H3).
  pose proof (Hbd (i - 1)%nat j) as (H4 & H5 & H6).
  pose proof (Hbd i (j - 1)%nat) as (H7 & H8 & H9).
  cbn [fst snd affine_view] in *.
  assert (Hsm : 5 * Z.of_nat ((i - 1) `min` (j - 1)) + 5 <= GoInt.max_int)
    by (clear -Hi Hj Hsz; lia).
  assert (Hsl : 5 * Z.of_nat ((i - 1) `min` j) <= GoInt.max_int)
    by (clear -Hi Hj Hsz; lia).
  assert (Hsa : 5 * Z.of_nat (i `min` (j - 1)) <= GoInt.max_int)
    by (clear -Hi Hj Hsz; lia).
  assert (GoInt.min_int = - 2 ^ 63) as Hmin by reflexivity.
  unfold affine_cell_exact. rewrite HM, HA, HB.
  repeat match goal with
  | |- context [GoInt.wrap ?z] =>
      rewrite (wrap_exact GoInt.min_int GoInt.max_int z)
        by (rewrite ?Hmin;
            clear -Hsr Ho He Hoe H1 H2 H3 H4 H5 H6 H7 H8 H9 Hsm Hsl Hsa; lia)
  end.
  eexists. split; [reflexivity|]. done.
Qed.

(** C2. The affine-gap builder returns three [(n+1)]-by-[(m+1)] matrices,
    and at every cell [(i, j)], [1 <= i <= n], [1 <= j <= m], that the
    diagonal flag does not exclude: [gapA] holds
    [max(0, M[i,j-1]-g_o-g_e, Ga[i,j-1]-g_e, Gb[i,j-1]-g_o-g_e)], [gapB]
    holds [max(0, M[i-1,j]-g_o-g_e, Ga[i-1,j]-g_o-g_e, Gb[i-1,j]-g_e)], and
    [matches] holds the largest of these two and of the match value
    [max(0, M[i-1,j-1]+s, Ga[i-1,j-1]+s, Gb[i-1,j-1]+s)], where [M] on the
    right is [matches] itself, the composite stored at the earlier cells.
    The candidates are Go's [int] values; for costs [0 <= g_o], [0 <= g_e]
    with [g_o + g_e <= 2^63] they are the exact integers.  The matrix that
    [main] prints and sums is this [matches]. *)
Theorem affine_recurrence diag open ext seqA seqB :
  (∃ st, Affine.build diag open ext seqA seqB = Some st ∧
    affine_good (String.length seqA) (String.length seqB) st ∧
    ∀ i j, (1 ≤ i ≤ String.length seqA)%nat → (1 ≤ j ≤ String.length seqB)%nat →
      ¬ (i = j ∧ diag = true) →
      ∃ s, pair_score Affine.substitution seqA seqB i j = Some s ∧
        affine_cell_wrapped open ext s (cell (Affine.matches st))
          (cell (Affine.gapA st)) (cell (Affine.gapB st)) i j ∧
        (0 <= open → 0 <= ext → open + ext <= 2 ^ 63 →
         5 * Z.of_nat (String.length seqA `min` String.length seqB) <= GoInt.max_int →
         affine_cell_exact open ext s (cell (Affine.matches st))
           (cell (Affine.gapA st)) (cell (Affine.gapB st)) i j)) ∧
  (∀ w f out, Affine.main w f = Some out →
     ∃ st prof,
       printed out = (if Affine.mat f then Affine.matches st else []) ∧
       sums (Affine.matches st) = Some prof ∧
       written out = writeScores w (Affine.out f) prof ∧
       ∃ recA recB seqsA seqsB,
         Affine.fasta_reader w (Affine.seqA f) = Some (recA :: seqsA) ∧
         Affine.fasta_reader w (Affine.seqB f) = Some (recB :: seqsB) ∧
         Affine.build (Affine.diag f) (Affine.open f) (Affine.ext f)
           (Fasta.seq recA) (Fasta.seq recB) = Some st).
Proof.
  split; [|apply affine_main_inv].
  destruct (affine_populate diag open ext seqA seqB) as (st & Hb & Hg & Hc).
  exists st. split; [done|]. split; [done|].
  intros i j Hi Hj Hex. apply excluded_false in Hex.
  destruct (pair_score_total Affine.substitution seqA seqB i j
              affine_substitution_total Hi Hj) as (s & Hsc & Hsr).
  exists s. split; [done|]. split.
  - by eapply affine_wrapped.
  - intros Ho He Hoe Hsz. by eapply affine_exact.
Qed.

(** ** The affine builder against the constant-penalty builder *)

Lemma has_symbol_byte_at c s k x :
  has_symbol c s = false → byte_at s k = Some x → x ≠ Z.of_N (N_of_ascii c).
Proof.
  revert k. induction s as [|a s IH]; intros k H Hx; [by destruct k|].
  simpl in H. apply orb_false_iff in H as [Ha H].
  destruct k as [|k].
  - unfold byte_at in Hx. simpl in Hx. injection Hx as <-.
    intros Heq. apply N2Z.inj in Heq.
    apply (f_equal ascii_of_N) in Heq. rewrite !ascii_N_embedding in Heq.
    subst a. by rewrite Ascii.eqb_refl in Ha.
  - apply (IH k); [done|]. unfold byte_at in *. simpl in Hx. done.
Qed.

Lemma substitution_agree x y :
  x ≠ 78 → y ≠ 78 → Affine.substitution x y = Constant.substitution x y.
Proof.
  intros Hx Hy. unfold Affine.substitution, Constant.substitution.
  rewrite !affine_index, !constant_index.
  repeat case_decide; try done; lia.
Qed.

Lemma pair_score_agree seqA seqB i j :
  without_N seqA → without_N seqB →
  pair_score Affine.substitution seqA seqB i j
  = pair_score Constant.substitution seqA seqB i j.
Proof.
  intros HA HB. unfold pair_score.
  destruct (byte_at seqA (i - 1)) as [x|] eqn:Ex; [|done].
  destruct (byte_at seqB (j - 1)) as [y|] eqn:Ey; [|done].
  simpl. apply substitution_agree.
  - exact (has_symbol_byte_at "N"%char seqA _ x HA Ex).
  - exact (has_symbol_byte_at "N"%char seqB _ y HB Ey).
Qed.

Lemma max3_dominated x y z :
  y <= x → z <= x → Z.max 0 (Z.max x (Z.max y z)) = Z.max 0 x.
Proof. lia. Qed.

(** C1, as stated, fails: with gap-open 25 and gap-extend 0 a gap of two
    columns costs 25 in the affine matrix and 50 in the constant-penalty
    one, so the cell [(6, 8)] holds 5 in the first and 0 in the second. *)
Lemma zero_extend_is_not_flat :
  Affine.matches <$> Affine.build false 25 0 "ACGTAC" "ACGTACGG"
  ≠ Constant.build false 25 "ACGTAC" "ACGTACGG".
Proof. vm_compute. intros H. discriminate H. Qed.

(** C1, amended.  For sequences without the symbol [N] and a penalty
    [0 <= p], the affine builder run with gap-open 0 and gap-extend [p]
    returns as its composite matrix the matrix of the constant-penalty
    builder run with [p]: it is zero open cost, not zero extend cost, that
    makes every gap position cost [p]. *)
Theorem zero_open_is_flat diag p seqA seqB :
  0 <= p <= GoInt.max_int →
  5 * Z.of_nat (String.length seqA `min` String.length seqB) <= GoInt.max_int →
  without_N seqA → without_N seqB →
  ∃ R, Constant.build diag p seqA seqB = Some R ∧
       Affine.matches <$> Affine.build diag 0 p seqA seqB = Some R.
Proof.
  intros Hp Hsz HNA HNB.
  destruct (constant_populate diag p seqA seqB) as (R & HbR & HsR & HcR).
  destruct (affine_populate diag 0 p seqA seqB) as (st & Hbst & (HsM & HsA & HsB) & Hcst).
  exists R. split; [done|]. rewrite Hbst. simpl. f_equal.
  apply (matrix_ext _ _ _ _ HsM HsR).
  assert (∀ k a b, (a + b < k)%nat →
            cell (Affine.matches st) a b = cell R a b
            ∧ 0 <= cell (Affine.gapA st) a b <= cell R a b
            ∧ 0 <= cell (Affine.gapB st) a b <= cell R a b) as H.
  { induction k as [|k IH]; intros a b Hk; [lia|].
    destruct (decide ((1 ≤ a ≤ String.length seqA)%nat
                      ∧ (1 ≤ b ≤ String.length seqB)%nat)) as [Hin|Hout].
    2:{ specialize (Hcst a b). rewrite decide_False in Hcst by done.
        unfold affine_view in Hcst. injection Hcst as -> -> ->.
        rewrite HcR, decide_False by done. lia. }
    destruct (excluded diag a b) eqn:Hex.
    { specialize (Hcst a b). rewrite decide_True in Hcst by done.
      unfold affine_value in Hcst. rewrite Hex in Hcst.
      unfold affine_view in Hcst. injection Hcst as -> -> ->.
      rewrite HcR, decide_True by done. unfold constant_value. rewrite Hex. lia. }
    destruct Hin as [Ha Hb'].
    destruct (pair_score_total Constant.substitution seqA seqB a b
                constant_substitution_total Ha Hb') as (s & Hsc & Hsr).
    rewrite (constant_exact diag p seqA seqB R a b s Hp Hsz HbR Ha Hb' Hex Hsc).
    rewrite <- pair_score_agree in Hsc by done.
    destruct (affine_exact diag 0 p seqA seqB st a b s ltac:(lia) ltac:(lia)
                ltac:(unfold GoInt.max_int in Hp; lia) Hsz Hbst Ha Hb' Hex Hsc)
      as (m0 & -> & HGa & HGb & HM).
    destruct (IH (a - 1)%nat (b - 1)%nat ltac:(lia)) as (E1 & ? & ?).
    destruct (IH (a - 1)%nat b ltac:(lia)) as (E2 & ? & ?).
    destruct (IH a (b - 1)%nat ltac:(lia)) as (E3 & ? & ?).
    rewrite E1, E2, E3 in *. rewrite HM, HGa, HGb.
    rewrite (max3_dominated (cell R (a - 1) (b - 1) + s)),
      (max3_dominated (cell R a (b - 1) - 0 - p)),
      (max3_dominated (cell R (a - 1) b - 0 - p)) by lia.
    clear. lia. }
  intros a b _ _. apply (H (S (a + b))). lia.
Qed.

(** ** Diagonal summation *)

Lemma Zsum_app l k : Zsum (l ++ k) = Zsum l + Zsum k.
Proof. unfold Zsum. induction l as [|x l IH]; simpl; lia. Qed.

Lemma diagonal_sum_S mx m d k :
  diagonal_sum mx m d (S k)
  = diagonal_sum mx m d k + (if decide (k + d ≤ m)%nat then cell mx k (k + d) else 0).
Proof.
  unfold diagonal_sum. rewrite seq_S, filter_app, map_app, Zsum_app. f_equal.
  simpl. rewrite filter_cons, filter_nil. case_decide; simpl; lia.
Qed.

(** One row of [sums]: the inner loop adds the cell [(i, i + d)] to the
    entry [d] for every [d] with [i + d <= m]. *)
Lemma sums_row n m mx i (acc : list Z) :
  shape n m mx → (i ≤ n)%nat → length acc = S m →
  ∃ acc',
    for_loop (seq i (S m - i))
      (λ j acc',
         v ← get_cell mx i j;
         old ← acc' !! (j - i)%nat;
         Some (<[(j - i)%nat := GoInt.add old v]> acc')) acc = Some acc'
    ∧ length acc' = S m
    ∧ ∀ d x, acc !! d = Some x →
        acc' !! d = Some (if decide (i + d ≤ m)%nat
                          then GoInt.add x (cell mx i (i + d)) else x).
Proof.
  intros Hs Hi Hlen.
  destruct (for_loop_invariant
    (λ j (t : list Z), length t = S m ∧
       ∀ d x, acc !! d = Some x →
         t !! d = Some (if decide (i + d < j)%nat
                        then GoInt.add x (cell mx i (i + d)) else x))
    (λ j acc',
         v ← get_cell mx i j;
         old ← acc' !! (j - i)%nat;
         Some (<[(j - i)%nat := GoInt.add old v]> acc'))
    i (S m - i) acc) as (acc' & Hrun & Hl' & Hv').
  - split; [done|]. intros d x Hx. rewrite decide_False by lia. done.
  - intros j t Hj [Hlt Hvt].
    rewrite (get_cell_shape n m) by (done || lia). simpl.
    destruct (lookup_lt_is_Some_2 acc (j - i)) as [x Hx]; [lia|].
    rewrite (Hvt _ _ Hx), decide_False by lia. simpl.
    eexists. split; [reflexivity|]. split; [by rewrite length_insert|].
    intros d y Hy. rewrite list_lookup_insert.
    destruct (decide (j - i = d)%nat) as [<-|Hne].
    + rewrite decide_True by lia. rewrite Hx in Hy. injection Hy as <-.
      rewrite decide_True by lia. by replace (i + (j - i))%nat with j by lia.
    + rewrite decide_False by lia. rewrite (Hvt _ _ Hy).
      repeat case_decide; (done || lia).
  - exists acc'. split; [done|]. split; [done|].
    intros d x Hx. rewrite (Hv' _ _ Hx).
    assert (d < S m)%nat by (rewrite <- Hlen; by eapply lookup_lt_Some).
    repeat case_decide; (done || lia).
Qed.

Lemma sums_spec n m mx :
  shape n m mx →
  ∃ prof, sums mx = Some prof ∧ length prof = S m ∧
    ∀ d, (d ≤ m)%nat → prof !! d = Some (GoInt.wrap (diagonal_sum mx m d (S n))).
Proof.
  intros Hs. unfold sums.
  destruct (lookup_lt_is_Some_2 mx 0%nat) as [row0 Hrow]; [destruct Hs; lia|].
  rewrite Hrow. simpl. rewrite (shape_lookup _ _ _ _ _ Hs Hrow).
  destruct Hs as [Hlen Hall]. rewrite Hlen.
  destruct (for_loop_invariant
    (λ i (t : list Z), length t = S m ∧
       ∀ d, (d ≤ m)%nat → t !! d = Some (GoInt.wrap (diagonal_sum mx m d i)))
    (λ i acc,
       for_loop (seq i (S m - i))
         (λ j acc',
            v ← get_cell mx i j;
            old ← acc' !! (j - i)%nat;
            Some (<[(j - i)%nat := GoInt.add old v]> acc')) acc)
    0 (S n) (replicate (S m) 0)) as (prof & Hrun & Hl & Hv).
  - split; [by rewrite length_replicate|]. intros d Hd.
    rewrite lookup_replicate_2 by lia. done.
  - intros i t Hi [Hlt Hvt].
    destruct (sums_row n m mx i t) as (t' & Hrun & Hl' & Hv'); [done|lia|done|].
    exists t'. split; [done|]. split; [done|].
    intros d Hd. rewrite (Hv' _ _ (Hvt d Hd)). f_equal.
    rewrite diagonal_sum_S. case_decide; [|f_equal; lia].
    unfold GoInt.add. apply wrap_add_l.
  - exists prof. split; [done|]. split; [done|]. exact Hv.
Qed.

(** C5. For an [(n+1)]-by-[(m+1)] matrix [sums] returns a profile of
    length [m+1], whatever [n]; its entry [d] is the sum, as an [int], of
    the cells [(i, i+d)] for [0 <= i <= n] with [i + d <= m], and the sum
    itself when that fits an [int]; two matrices that agree on the cells
    with [i <= j] have one profile. *)
Theorem diagonal_profile n m (mx : matrix) :
  shape n m mx →
  ∃ prof, sums mx = Some prof ∧ length prof = S m ∧
    (∀ d, (d ≤ m)%nat →
       prof !! d = Some (GoInt.wrap (diagonal_sum mx m d (S n))) ∧
       (GoInt.in_range (diagonal_sum mx m d (S n)) →
        prof !! d = Some (diagonal_sum mx m d (S n)))) ∧
    (∀ mx' : matrix, shape n m mx' →
       (∀ i j, (i ≤ j)%nat → cell mx' i j = cell mx i j) → sums mx' = Some prof).
Proof.
  intros Hs. destruct (sums_spec n m mx Hs) as (prof & Hrun & Hl & Hv).
  exists prof. split; [done|]. split; [done|]. split.
  - intros d Hd. split; [by apply Hv|].
    intros Hr. rewrite (Hv d Hd). f_equal. by apply wrap_in_range.
  - intros mx' Hs' Hagree.
    destruct (sums_spec n m mx' Hs') as (prof' & Hrun' & Hl' & Hv').
    rewrite Hrun'. f_equal.
    apply list_eq_same_length with (S m); [done|done|].
    intros d x y Hd Hx Hy. rewrite Hv' in Hx by lia. rewrite Hv in Hy by lia.
    injection Hx as <-. injection Hy as <-. f_equal.
    unfold diagonal_sum. f_equal. apply map_ext. intros i. apply Hagree. lia.
Qed.

Lemma matrix_zip_shape f n m A B :
  shape n m A → shape n m B → shape n m (matrix_zip f A B).
Proof.
  intros [HlA HA] [HlB HB]. unfold matrix_zip. split.
  - rewrite length_zip_with. lia.
  - apply Forall_lookup. intros i row Hrow.
    apply lookup_zip_with_Some in Hrow as (ra & rb & -> & Hra & Hrb).
    rewrite length_zip_with.
    rewrite Forall_lookup in HA, HB.
    rewrite (HA _ _ Hra), (HB _ _ Hrb). lia.
Qed.

Lemma matrix_zip_cell f n m A B i j :
  shape n m A → shape n m B → (i ≤ n)%nat → (j ≤ m)%nat →
  cell (matrix_zip f A B) i j = f (cell A i j) (cell B i j).
Proof.
  intros HA HB Hi Hj.
  pose proof (get_cell_shape n m A i j HA Hi Hj) as Ha.
  pose proof (get_cell_shape n m B i j HB Hi Hj) as Hb.
  unfold cell at 1. unfold get_cell, matrix_zip in *.
  rewrite lookup_zip_with.
  destruct (A !! i) as [ra|]; [|done]. destruct (B !! i) as [rb|]; [|done].
  simpl in *. rewrite lookup_zip_with, Ha, Hb. done.
Qed.

Lemma wrap_add_congr a a' b b' :
  GoInt.wrap a = GoInt.wrap a' → GoInt.wrap b = GoInt.wrap b' →
  GoInt.wrap (a + b) = GoInt.wrap (a' + b').
Proof.
  intros Ha Hb.
  rewrite <- (wrap_add_l a b), <- (wrap_add_r _ b), Ha, Hb, wrap_add_l, wrap_add_r.
  done.
Qed.

Lemma diagonal_sum_add n m (A B C : matrix) d k :
  (k ≤ S n)%nat →
  (∀ i j, (i ≤ n)%nat → (j ≤ m)%nat →
     GoInt.wrap (cell C i j) = GoInt.wrap (cell A i j + cell B i j)) →
  GoInt.wrap (diagonal_sum C m d k)
  = GoInt.wrap (diagonal_sum A m d k + diagonal_sum B m d k).
Proof.
  intros Hk Hc. induction k as [|k IH]; [done|].
  rewrite !diagonal_sum_S. case_decide.
  - replace (diagonal_sum A m d k + cell A k (k + d)
             + (diagonal_sum B m d k + cell B k (k + d)))
      with ((diagonal_sum A m d k + diagonal_sum B m d k)
            + (cell A k (k + d) + cell B k (k + d))) by lia.
    apply wrap_add_congr; [apply IH; lia|apply Hc; lia].
  - rewrite !Z.add_0_r. apply IH. lia.
Qed.

Lemma sums_additive n m (A B C : matrix) pa pb :
  shape n m A → shape n m B → shape n m C →
  (∀ i j, (i ≤ n)%nat → (j ≤ m)%nat →
     GoInt.wrap (cell C i j) = GoInt.wrap (cell A i j + cell B i j)) →
  sums A = Some pa → sums B = Some pb →
  sums C = Some (zip_with GoInt.add pa pb).
Proof.
  intros HA HB HC Hc Ha Hb.
  destruct (sums_spec n m A HA) as (pa' & Ha' & Hla & Hva).
  destruct (sums_spec n m B HB) as (pb' & Hb' & Hlb & Hvb).
  destruct (sums_spec n m C HC) as (pc & -> & Hlc & Hvc).
  rewrite Ha in Ha'. injection Ha' as <-. rewrite Hb in Hb'. injection Hb' as <-.
  f_equal. apply list_eq_same_length with (S m); [|done|].
  { rewrite length_zip_with. lia. }
  intros d x y Hd Hx Hy.
  rewrite Hvc in Hx by lia. injection Hx as <-.
  rewrite lookup_zip_with, Hva, Hvb in Hy by lia. simpl in Hy. injection Hy as <-.
  unfold GoInt.add. rewrite wrap_add_l, wrap_add_r.
  by apply (diagonal_sum_add n).
Qed.

(** C6. For two matrices of one [(n+1)]-by-[(m+1)] shape, the profile of
    their cell-wise sum is the entry-wise sum of their profiles, the sums
    being those of Go's [int]; the same holds when the cells are added as
    exact integers. *)
Theorem sums_linear n m (A B : matrix) :
  shape n m A → shape n m B →
  ∃ pa pb, sums A = Some pa ∧ sums B = Some pb ∧
    sums (matrix_zip GoInt.add A B) = Some (zip_with GoInt.add pa pb) ∧
    sums (matrix_zip Z.add A B) = Some (zip_with GoInt.add pa pb).
Proof.
  intros HA HB.
  destruct (sums_spec n m A HA) as (pa & Ha & _).
  destruct (sums_spec n m B HB) as (pb & Hb & _).
  exists pa, pb. split; [done|]. split; [done|]. split.
  - apply (sums_additive n m A B); try done; [by apply matrix_zip_shape|].
    intros i j Hi Hj. rewrite (matrix_zip_cell _ n m) by done.
    unfold GoInt.add. pose proof (wrap_bounds (cell A i j + cell B i j)).
    by rewrite (wrap_in_range (GoInt.wrap _)).
  - apply (sums_additive n m A B); try done; [by apply matrix_zip_shape|].
    intros i j Hi Hj. by rewrite (matrix_zip_cell _ n m).
Qed.

(** ** Input without records *)

(** C8. When the reader of either program returns no record for one of the
    two files, [main] ends in the index panic of [[0]]: nothing is printed
    and no profile is written. *)
Theorem no_record_is_fatal :
  (∀ w f,
     Constant.readFasta w (Constant.seqA f) = Some []
     ∨ Constant.readFasta w (Constant.seqB f) = Some [] →
     Constant.main w f = None) ∧
  (∀ w f,
     Affine.fasta_reader w (Affine.seqA f) = Some []
     ∨ Affine.fasta_reader w (Affine.seqB f) = Some [] →
     Affine.main w f = None).
Proof.
  split; intros w f H.
  - unfold Constant.main. case_match; [done|].
    destruct (Constant.readFasta w (Constant.seqA f)) as [[|recA seqsA]|] eqn:EA;
      [done| |done].
    destruct H as [H|H]; [done|]. rewrite H. done.
  - unfold Affine.main. case_match; [done|].
    destruct (Affine.fasta_reader w (Affine.seqA f)) as [[|recA seqsA]|] eqn:EA;
      [done| |done].
    destruct H as [H|H]; [done|]. rewrite H. done.
Qed.

(** ** Symbols outside the maps *)

Lemma map_string_length f s : String.length (map_string f s) = String.length s.
Proof. induction s; simpl; congruence. Qed.

Lemma byte_at_map_string f s k :
  byte_at (map_string f s) k = (λ c, byte_of (f c)) <$> String.get k s.
Proof.
  revert k. unfold byte_at. induction s as [|c s IH]; intros [|k]; simpl; done.
Qed.

Lemma byte_at_get s k : byte_at s k = byte_of <$> String.get k s.
Proof. unfold byte_at. by destruct (String.get k s). Qed.

Lemma map_at_read_as_A (m : gmap Z nat) c :
  m !! 65 = Some 0%nat → map_at m (byte_of (read_as_A m c)) = map_at m (byte_of c).
Proof.
  intros HA. unfold read_as_A, map_at.
  destruct (m !! byte_of c) eqn:E; [by rewrite E|].
  change (byte_of "A") with 65. by rewrite HA.
Qed.

Lemma constant_cell_read_as_A diag p seqA seqB i j mx :
  Constant.populate_cell diag p
    (map_string (read_as_A Constant.baseInt) seqA)
    (map_string (read_as_A Constant.baseInt) seqB) i j mx
  = Constant.populate_cell diag p seqA seqB i j mx.
Proof.
  unfold Constant.populate_cell. case_match; [done|].
  rewrite !byte_at_map_string, !byte_at_get.
  destruct (String.get (i - 1) seqA) as [a|]; [|done].
  destruct (String.get (j - 1) seqB) as [b|]; [|done]. simpl.
  unfold Constant.substitution. by rewrite !map_at_read_as_A.
Qed.

Lemma affine_cell_read_as_A diag o e seqA seqB i j st :
  Affine.populate_cell diag o e
    (map_string (read_as_A Affine.baseInt) seqA)
    (map_string (read_as_A Affine.baseInt) seqB) i j st
  = Affine.populate_cell diag o e seqA seqB i j st.
Proof.
  unfold Affine.populate_cell. case_match; [done|].
  rewrite !byte_at_map_string, !byte_at_get.
  destruct (String.get (i - 1) seqA) as [a|]; [|done].
  destruct (String.get (j - 1) seqB) as [b|]; [|done]. simpl.
  unfold Affine.substitution. by rewrite !map_at_read_as_A.
Qed.

Lemma constant_absent_index k : absent_constant k → map_at Constant.baseInt k = 0%nat.
Proof.
  intros (? & ? & ? & ? & ?). rewrite constant_index. repeat case_decide; done.
Qed.

Lemma affine_absent_index k : absent_affine k → map_at Affine.baseInt k = 0%nat.
Proof.
  intros (? & ? & ? & ?). rewrite affine_index. repeat case_decide; done.
Qed.

Lemma constant_absent_score x y s :
  Constant.substitution x y = Some s →
  (absent_constant x → Constant.substitution 65 y = Some s ∧ scored_as_A s y) ∧
  (absent_constant y → Constant.substitution x 65 = Some s ∧ scored_as_A s x) ∧
  (absent_constant x → absent_constant y → s = 5).
Proof.
  intros Hs.
  assert (HA : map_at Constant.baseInt 65 = 0%nat) by reflexivity.
  split_and!.
  - intros Hx. apply constant_absent_index in Hx.
    assert (H65 : Constant.substitution 65 y = Some s).
    { unfold Constant.substitution in *. by rewrite HA, <- Hx. }
    split; [done|]. split.
    + intros ->. vm_compute in H65. by injection H65.
    + intros [ -> | [ -> | -> ] ]; vm_compute in H65; by injection H65.
  - intros Hy. apply constant_absent_index in Hy.
    assert (H65 : Constant.substitution x 65 = Some s).
    { unfold Constant.substitution in *. by rewrite HA, <- Hy. }
    split; [done|]. split.
    + intros ->. vm_compute in H65. by injection H65.
    + intros [ -> | [ -> | -> ] ]; vm_compute in H65; by injection H65.
  - intros Hx Hy. apply constant_absent_index in Hx, Hy.
    unfold Constant.substitution in Hs. rewrite Hx, Hy in Hs.
    vm_compute in Hs. by injection Hs.
Qed.

Lemma affine_absent_score x y s :
  Affine.substitution x y = Some s →
  (absent_affine x → Affine.substitution 65 y = Some s ∧ scored_as_A s y) ∧
  (absent_affine y → Affine.substitution x 65 = Some s ∧ scored_as_A s x) ∧
  (absent_affine x → absent_affine y → s = 5).
Proof.
  intros Hs.
  assert (HA : map_at Affine.baseInt 65 = 0%nat) by reflexivity.
  split_and!.
  - intros Hx. apply affine_absent_index in Hx.
    assert (H65 : Affine.substitution 65 y = Some s).
    { unfold Affine.substitution in *. by rewrite HA, <- Hx. }
    split; [done|]. split.
    + intros ->. vm_compute in H65. by injection H65.
    + intros [ -> | [ -> | -> ] ]; vm_compute in H65; by injection H65.
  - intros Hy. apply affine_absent_index in Hy.
    assert (H65 : Affine.substitution x 65 = Some s).
    { unfold Affine.substitution in *. by rewrite HA, <- Hy. }
    split; [done|]. split.
    + intros ->. vm_compute in H65. by injection H65.
    + intros [ -> | [ -> | -> ] ]; vm_compute in H65; by injection H65.
  - intros Hx Hy. apply affine_absent_index in Hx, Hy.
    unfold Affine.substitution in Hs. rewrite Hx, Hy in Hs.
    vm_compute in Hs. by injection Hs.
Qed.

(** The cells of the constant-penalty matrix at a symbol outside the map. *)
Lemma constant_absent_cells diag p seqA seqB :
  ∃ R, Constant.build diag p seqA seqB = Some R ∧
    ∀ i j x y,
      (1 ≤ i ≤ String.length seqA)%nat → (1 ≤ j ≤ String.length seqB)%nat →
      ¬ (i = j ∧ diag = true) →
      byte_at seqA (i - 1) = Some x → byte_at seqB (j - 1) = Some y →
      ∃ s,
        get_cell R i j
        = Some (Z.max 0 (Z.max (GoInt.wrap (cell R (i - 1) (j - 1) + s))
                          (Z.max (GoInt.wrap (cell R (i - 1) j - p))
                                 (GoInt.wrap (cell R i (j - 1) - p))))) ∧
        (absent_constant x → Constant.substitution 65 y = Some s ∧ scored_as_A s y) ∧
        (absent_constant y → Constant.substitution x 65 = Some s ∧ scored_as_A s x) ∧
        (absent_constant x → absent_constant y → s = 5).
Proof.
  destruct (constant_populate diag p seqA seqB) as (R & Hb & Hs & Hc).
  exists R. split; [done|]. intros i j x y Hi Hj Hex Hx Hy.
  apply excluded_false in Hex.
  destruct (pair_score_total Constant.substitution seqA seqB i j
              constant_substitution_total Hi Hj) as (s & Hsc & _).
  exists s. split.
  - rewrite (get_cell_shape _ _ _ _ _ Hs) by lia. f_equal.
    by eapply constant_wrapped.
  - unfold pair_score in Hsc. rewrite Hx, Hy in Hsc. simpl in Hsc.
    by apply constant_absent_score.
Qed.

(** The cells of the affine matrices at a symbol outside the map. *)
Lemma affine_absent_cells diag o e seqA seqB :
  ∃ st, Affine.build diag o e seqA seqB = Some st ∧
    ∀ i j x y,
      (1 ≤ i ≤ String.length seqA)%nat → (1 ≤ j ≤ String.length seqB)%nat →
      ¬ (i = j ∧ diag = true) →
      byte_at seqA (i - 1) = Some x → byte_at seqB (j - 1) = Some y →
      ∃ s,
        affine_cell_wrapped o e s (cell (Affine.matches st))
          (cell (Affine.gapA st)) (cell (Affine.gapB st)) i j ∧
        (absent_affine x → Affine.substitution 65 y = Some s ∧ scored_as_A s y) ∧
        (absent_affine y → Affine.substitution x 65 = Some s ∧ scored_as_A s x) ∧
        (absent_affine x → absent_affine y → s = 5).
Proof.
  destruct (affine_populate diag o e seqA seqB) as (st & Hb & Hs & Hc).
  exists st. split; [done|]. intros i j x y Hi Hj Hex Hx Hy.
  apply excluded_false in Hex.
  destruct (pair_score_total Affine.substitution seqA seqB i j
              affine_substitution_total Hi Hj) as (s & Hsc & _).
  exists s. split.
  - by eapply affine_wrapped.
  - unfold pair_score in Hsc. rewrite Hx, Hy in Hsc. simpl in Hsc.
    by apply affine_absent_score.
Qed.

(** C9. A byte that is not a key of the symbol map is looked up as index 0,
    the index of [A]: against every symbol it scores what [A] scores (5
    against [A], -4 against [C], [G] and [T]).  Each builder returns,
    without a panic, the matrix it returns when every such byte is
    replaced by [A], and at every cell that the diagonal flag does not
    exclude and where one of the two symbols is such a byte, the builder
    stores the value of its recurrence with that score of [A]. *)
Theorem absent_symbol_is_A :
  (∀ k, k ≠ 65 → k ≠ 67 → k ≠ 71 → k ≠ 84 → k ≠ 78 →
     map_at Constant.baseInt k = 0%nat ∧
     ∀ y, Constant.substitution k y = Constant.substitution 65 y
          ∧ Constant.substitution y k = Constant.substitution y 65) ∧
  (∀ k, k ≠ 65 → k ≠ 67 → k ≠ 71 → k ≠ 84 →
     map_at Affine.baseInt k = 0%nat ∧
     ∀ y, Affine.substitution k y = Affine.substitution 65 y
          ∧ Affine.substitution y k = Affine.substitution y 65) ∧
  (Constant.substitution 65 <$> [65; 67; 71; 84]) = [Some 5; Some (-4); Some (-4); Some (-4)] ∧
  (Affine.substitution 65 <$> [65; 67; 71; 84]) = [Some 5; Some (-4); Some (-4); Some (-4)] ∧
  (∀ diag p seqA seqB,
     ∃ R, Constant.build diag p seqA seqB = Some R ∧
          Constant.build diag p (map_string (read_as_A Constant.baseInt) seqA)
            (map_string (read_as_A Constant.baseInt) seqB) = Some R) ∧
  (∀ diag o e seqA seqB,
     ∃ st, Affine.build diag o e seqA seqB = Some st ∧
           Affine.build diag o e (map_string (read_as_A Affine.baseInt) seqA)
             (map_string (read_as_A Affine.baseInt) seqB) = Some st) ∧
  (∀ diag p seqA seqB,
     ∃ R, Constant.build diag p seqA seqB = Some R ∧
       ∀ i j x y,
         (1 ≤ i ≤ String.length seqA)%nat → (1 ≤ j ≤ String.length seqB)%nat →
         ¬ (i = j ∧ diag = true) →
         byte_at seqA (i - 1) = Some x → byte_at seqB (j - 1) = Some y →
         ∃ s,
           get_cell R i j
           = Some (Z.max 0 (Z.max (GoInt.wrap (cell R (i - 1) (j - 1) + s))
                             (Z.max (GoInt.wrap (cell R (i - 1) j - p))
                                    (GoInt.wrap (cell R i (j - 1) - p))))) ∧
           (absent_constant x → Constant.substitution 65 y = Some s ∧ scored_as_A s y) ∧
           (absent_constant y → Constant.substitution x 65 = Some s ∧ scored_as_A s x) ∧
           (absent_constant x → absent_constant y → s = 5)) ∧
  (∀ diag o e seqA seqB,
     ∃ st, Affine.build diag o e seqA seqB = Some st ∧
       ∀ i j x y,
         (1 ≤ i ≤ String.length seqA)%nat → (1 ≤ j ≤ String.length seqB)%nat →
         ¬ (i = j ∧ diag = true) →
         byte_at seqA (i - 1) = Some x → byte_at seqB (j - 1) = Some y →
         ∃ s,
           affine_cell_wrapped o e s (cell (Affine.matches st))
             (cell (Affine.gapA st)) (cell (Affine.gapB st)) i j ∧
           (absent_affine x → Affine.substitution 65 y = Some s ∧ scored_as_A s y) ∧
           (absent_affine y → Affine.substitution x 65 = Some s ∧ scored_as_A s x) ∧
           (absent_affine x → absent_affine y → s = 5)).
Proof.
  split_and!.
  - intros k ? ? ? ? ?.
    assert (map_at Constant.baseInt k = 0%nat) as Hk.
    { rewrite constant_index. repeat case_decide; done. }
    split; [done|]. intros y. unfold Constant.substitution. rewrite Hk. done.
  - intros k ? ? ? ?.
    assert (map_at Affine.baseInt k = 0%nat) as Hk.
    { rewrite affine_index. repeat case_decide; done. }
    split; [done|]. intros y. unfold Affine.substitution. rewrite Hk. done.
  - reflexivity.
  - reflexivity.
  - intros diag p seqA seqB.
    destruct (constant_populate diag p seqA seqB) as (R & Hb & _).
    exists R. split; [done|]. rewrite <- Hb.
    unfold Constant.build, Constant.populate. rewrite !map_string_length.
    apply for_loop_ext. intros i mx. destruct (mx !! 0%nat); [simpl|done].
    apply for_loop_ext. intros j mx'. apply constant_cell_read_as_A.
  - intros diag o e seqA seqB.
    destruct (affine_populate diag o e seqA seqB) as (st & Hb & _).
    exists st. split; [done|]. rewrite <- Hb.
    unfold Affine.build, Affine.populate. rewrite !map_string_length.
    apply for_loop_ext. intros i s. destruct (Affine.matches s !! 0%nat); [simpl|done].
    apply for_loop_ext. intros j s'. apply affine_cell_read_as_A.
  - apply constant_absent_cells.
  - apply affine_absent_cells.
Qed.

(** ** The last line of a file *)





















Lemma Scan_empty : Bufio.Scan EmptyString = None.
Proof. reflexivity. Qed.









(** ** The theorems on concrete inputs *)

Lemma zero_open_is_flat_witness :
  0 <= 25 <= GoInt.max_int ∧
  5 * Z.of_nat (String.length "ACGTAC" `min` String.length "ACGTACGG") <= GoInt.max_int ∧
  without_N "ACGTAC" ∧ without_N "ACGTACGG" ∧
  ∃ R, Constant.build false 25 "ACGTAC" "ACGTACGG" = Some R ∧
       Affine.matches <$> Affine.build false 0 25 "ACGTAC" "ACGTACGG" = Some R.
Proof.
  assert (H1 : 0 <= 25 <= GoInt.max_int) by (unfold GoInt.max_int; lia).
  assert (H2 : 5 * Z.of_nat (String.length "ACGTAC" `min` String.length "ACGTACGG")
               <= GoInt.max_int) by (unfold GoInt.max_int; simpl; lia).
  assert (H3 : without_N "ACGTAC") by reflexivity.
  assert (H4 : without_N "ACGTACGG") by reflexivity.
  split_and!; try assumption.
  apply (zero_open_is_flat false 25 "ACGTAC" "ACGTACGG" H1 H2 H3 H4).
Defined.

Lemma affine_recurrence_witness :
  ∃ st, Affine.build false 25 1 "ACGT" "ACGT" = Some st ∧
        affine_cell_exact 25 1 5 (cell (Affine.matches st))
          (cell (Affine.gapA st)) (cell (Affine.gapB st)) 2 2.
Proof.
  destruct (proj1 (affine_recurrence false 25 1 "ACGT" "ACGT"))
    as (st & Hb & _ & Hrec).
  exists st. split; [exact Hb|].
  destruct (Hrec 2%nat 2%nat) as (s & Hsc & _ & Hex).
  - simpl. lia.
  - simpl. lia.
  - intros [_ H]. discriminate H.
  - vm_compute in Hsc. injection Hsc as <-.
    apply Hex; unfold GoInt.max_int; simpl; lia.
Defined.

Lemma constant_recurrence_witness :
  ∃ R, Constant.build false 25 "ACGT" "ACGT" = Some R ∧
       get_cell R 2 2
       = Some (Z.max 0 (Z.max (cell R 1 1 + 5) (Z.max (cell R 1 2 - 25) (cell R 2 1 - 25)))).
Proof.
  destruct (constant_recurrence false 25 "ACGT" "ACGT")
    as (R & Hb & _ & _ & _ & Hrec).
  exists R. split; [exact Hb|].
  destruct (Hrec 2%nat 2%nat) as (s & Hsc & _ & Hex).
  - simpl. lia.
  - simpl. lia.
  - intros [_ H]. discriminate H.
  - vm_compute in Hsc. injection Hsc as <-.
    apply Hex; unfold GoInt.max_int; simpl; lia.
Defined.

Lemma diagonal_profile_witness :
  shape 1 2 [[1; 2; 3]; [4; 5; 6]] ∧
  ∃ prof, sums [[1; 2; 3]; [4; 5; 6]] = Some prof ∧ length prof = 3%nat ∧
          prof !! 1%nat = Some (GoInt.wrap (diagonal_sum [[1; 2; 3]; [4; 5; 6]] 2 1 2)).
Proof.
  assert (Hs : shape 1 2 [[1; 2; 3]; [4; 5; 6]]).
  { split; [reflexivity|]. repeat constructor. }
  split; [exact Hs|].
  destruct (diagonal_profile 1 2 [[1; 2; 3]; [4; 5; 6]] Hs) as (prof & Hp & Hl & Hv & _).
  exists prof. split; [exact Hp|]. split; [exact Hl|].
  destruct (Hv 1%nat) as [Hw _]; [lia|]. exact Hw.
Defined.

Lemma sums_linear_witness :
  shape 1 2 [[1; 2; 3]; [4; 5; 6]] ∧ shape 1 2 [[10; 0; 0]; [0; 20; 30]] ∧
  ∃ pa pb, sums [[1; 2; 3]; [4; 5; 6]] = Some pa ∧
           sums [[10; 0; 0]; [0; 20; 30]] = Some pb ∧
           sums (matrix_zip GoInt.add [[1; 2; 3]; [4; 5; 6]] [[10; 0; 0]; [0; 20; 30]])
           = Some (zip_with GoInt.add pa pb).
Proof.
  assert (HA : shape 1 2 [[1; 2; 3]; [4; 5; 6]]).
  { split; [reflexivity|]. repeat constructor. }
  assert (HB : shape 1 2 [[10; 0; 0]; [0; 20; 30]]).
  { split; [reflexivity|]. repeat constructor. }
  split; [exact HA|]. split; [exact HB|].
  destruct (sums_linear 1 2 _ _ HA HB) as (pa & pb & Ha & Hb & Hab & _).
  exists pa, pb. split; [exact Ha|]. split; [exact Hb|]. exact Hab.
Defined.

Lemma diagonal_excluded_witness :
  ∃ R, Constant.build true 25 "ACGT" "ACG" = Some R ∧ get_cell R 3 3 = Some 0.
Proof.
  destruct (proj1 (diagonal_excluded 25 25 1 "ACGT" "ACG")) as (R & Hb & Hd).
  exists R. split; [exact Hb|]. apply Hd. simpl. lia.
Defined.

Lemma no_record_is_fatal_witness :
  Constant.readFasta empty_a_world "a.fasta" = Some [] ∧
  Constant.main empty_a_world
    (Constant.Flags "a.fasta" "b.fasta" false 25 false "SW_PARSE.txt") = None.
Proof.
  assert (H : Constant.readFasta empty_a_world "a.fasta" = Some []) by reflexivity.
  split; [exact H|].
  apply (proj1 no_record_is_fatal empty_a_world
           (Constant.Flags "a.fasta" "b.fasta" false 25 false "SW_PARSE.txt")).
  left. exact H.
Defined.

Lemma absent_symbol_is_A_witness :
  ∃ R s, Constant.build false 25 "X" "A" = Some R ∧
         Constant.substitution 65 65 = Some s ∧ s = 5 ∧
         get_cell R 1 1
         = Some (Z.max 0 (Z.max (GoInt.wrap (cell R 0 0 + s))
                           (Z.max (GoInt.wrap (cell R 0 1 - 25))
                                  (GoInt.wrap (cell R 1 0 - 25))))) ∧
         get_cell R 1 1 = Some 5.
Proof.
  destruct absent_symbol_is_A as (_ & _ & _ & _ & _ & _ & Hcells & _).
  destruct (Hcells false 25 "X" "A") as (R & Hb & Hrec).
  destruct (Hrec 1%nat 1%nat 88 65) as (s & Hcell & Hx & _).
  - simpl. lia.
  - simpl. lia.
  - intros [_ H]. discriminate H.
  - reflexivity.
  - reflexivity.
  - destruct Hx as (H65 & Hs5 & _).
    + unfold absent_constant. repeat split; discriminate.
    + exists R, s. split; [exact Hb|]. split; [exact H65|].
      split; [apply Hs5; reflexivity|]. split; [exact Hcell|].
      vm_compute in Hb. injection Hb as <-. reflexivity.
Defined.

